(** * Advent of Code 2022, day 15: sensor coverage on a row

    A shallow embedding of [advent_of_code_2022/day_15/aoc_2022_15.py] and the
    properties of its interval geometry.  Python integers are unbounded, so
    they are [Z]; a Python [dict] is a [gmap], a [set] a [gset]; a raised
    exception ([IndexError], [KeyError], [ValueError]) is the [None] of an
    [option]. *)

From Stdlib Require Import ZArith Ascii String DecimalString DecimalPos.
From stdpp Require Import gmap list sorting.

Local Open Scope Z_scope.

(** ** Data model *)

(** [coord.Coord]: a value object with integer fields [x] and [y]. *)
Record Coord : Set := mkCoord { x : Z; y : Z }.

#[global] Instance Coord_eq_dec : EqDecision Coord.
Proof. solve_decision. Defined.

#[global] Instance Coord_countable : Countable Coord.
Proof.
  refine (inj_countable' (λ c, (x c, y c)) (λ p, mkCoord p.1 p.2) _).
  by intros [].
Defined.

(** Modelled from the spec: [Coord.distance], of the module [coord] whose
    source is missing; the spec makes it the Manhattan distance. *)
Definition distance (a b : Coord) : Z :=
  Z.abs (x a - x b) + Z.abs (y a - y b).

(** [sensor.Sensor]: a coordinate and a scan radius, hashable by both. *)
Record Sensor : Set := mkSensor { coord : Coord; scan_range : Z }.

#[global] Instance Sensor_eq_dec : EqDecision Sensor.
Proof. solve_decision. Defined.

#[global] Instance Sensor_countable : Countable Sensor.
Proof.
  refine (inj_countable' (λ s, (coord s, scan_range s))
                         (λ p, mkSensor p.1 p.2) _).
  by intros [].
Defined.

(** An inclusive range of x-coordinates, the tuple [(start, end)]. *)
Abbreviation range := (Z * Z)%type.

(** Modelled from the spec: [Sensor.get_coverage_at_row], of the module
    [sensor] whose source is missing.  It is the spec's operation
    [compute_row_interval]: [span = radius - |row - sensor.y|]; absent when
    [span < 0], otherwise [[sensor.x - span, sensor.x + span]]. *)
Definition compute_row_interval (s : Sensor) (row : Z) : option range :=
  let span := scan_range s - Z.abs (row - y (coord s)) in
  if span <? 0 then None
  else Some (x (coord s) - span, x (coord s) + span).

Definition get_coverage_at_row := compute_row_interval.

(** ** [blend_coverage_ranges] *)

(** [sorted(ranges, key=lambda x: x[0])]: Python's sort is stable, so ranges
    with equal starts keep their order; a stable insertion sort computes the
    same list. *)
Fixpoint insert_by_start (r : range) (l : list range) : list range :=
  match l with
  | [] => [r]
  | r' :: l' => if r.1 <=? r'.1 then r :: l else r' :: insert_by_start r l'
  end.

Definition sorted (ranges : list range) : list range :=
  foldr insert_by_start [] ranges.

(** The body of the loop: [blended_ranges[-1]] is read, then overwritten,
    left alone or followed by a new range. *)
Definition blend_step (blended_ranges : list range) (r : range) : list range :=
  let '(start, end_) := r in
  match last blended_ranges with
  | None => blended_ranges (* not reached: the list starts with one range *)
  | Some (last_start, last_end) =>
      if (start <=? last_end + 1) && (end_ >=? last_end) then
        <[(length blended_ranges - 1)%nat := (last_start, end_)]> blended_ranges
      else if (start <=? last_end) && (end_ <=? last_end) then
        blended_ranges
      else
        blended_ranges ++ [(start, end_)]
  end.

(** [ranges[0]] raises [IndexError] on the empty list. *)
Definition blend_coverage_ranges (ranges : list range) : option (list range) :=
  let ranges := sorted ranges in
  r0 ← ranges !! 0%nat;
  Some (foldl blend_step [r0] ranges).

(** ** [get_sensors_coverage_at_row] *)

(** The comprehension keeps the sensors whose coverage is truthy (a tuple,
    not [None]); the set is enumerated in some order. *)
Definition get_sensors_coverage_at_row (sensors : gset Sensor) (row : Z)
  : option (list range) :=
  let coverage_ranges :=
    omap (λ sensor, get_coverage_at_row sensor row) (elements sensors) in
  blend_coverage_ranges coverage_ranges.

(** ** [part1] *)

(** The loop that fills the set of sensors, over [data.items()]. *)
Definition sensors_of (data : gmap Coord Coord) : gset Sensor :=
  foldl (λ sensors '(sensor, beacon),
           let scan_range := distance sensor beacon in
           sensors ∪ {[ mkSensor sensor scan_range ]})
        ∅ (map_to_list data).

(** The built-in [sum] over a generator, starting from 0. *)
Definition sum_ints (l : list Z) : Z := foldl Z.add 0 l.

Definition part1 (data : gmap Coord Coord) (row : Z) : option Z :=
  let sensors := sensors_of data in
  covered_at_row ← get_sensors_coverage_at_row sensors row;
  let beacons_at_row : gset Coord :=
    list_to_set (filter (λ beacon, y beacon = row) (map_to_list data).*2) in
  let covered := sum_ints ((λ '(start, end_), end_ - start + 1) <$> covered_at_row) in
  Some (covered - Z.of_nat (size beacons_at_row)).

(** ** [part2] *)

Fixpoint is_covered (coverage : list range) (x : Z) : bool :=
  match coverage with
  | [] => false
  | (start, end_) :: coverage' =>
      if (start <=? x) && (x <=? end_) then true else is_covered coverage' x
  end.

(** [itertools.pairwise]. *)
Definition pairwise {A} (l : list A) : list (A * A) := zip l (tail l).

(** Truth value of a list: empty lists are false. *)
Definition truthy {A} (l : list A) : bool :=
  match l with [] => false | _ => true end.

(** Truth value of [row_coverage.get(r)], then the conditional expression
    [is_covered(c, x) if c else False]. *)
Definition covered_in (row_coverage : gmap Z (list range)) (r x : Z) : bool :=
  match row_coverage !! r with
  | Some c => if truthy c then is_covered c x else false
  | None => false
  end.

(** The test on one pair of neighbours: the missing x when the gap is one
    cell wide. *)
Definition gap_x (left_ right_ : range) : option Z :=
  if bool_decide (right_.1 - left_.2 = 2) then Some (left_.2 + 1) else None.

(** First loop of [part2], one row: the coverage is stored when non-empty and
    the row is a candidate when its coverage has more than one range. *)
Definition scan_row (sensors : gset Sensor)
    (st : gmap Z (list range) * list Z) (row : Z)
  : option (gmap Z (list range) * list Z) :=
  coverage ← get_sensors_coverage_at_row sensors row;
  Some (if truthy coverage then
          (<[row := coverage]> st.1,
           if bool_decide (1 < length coverage)%nat then st.2 ++ [row] else st.2)
        else st).

Fixpoint scan_rows (sensors : gset Sensor) (rows : list Z)
    (st : gmap Z (list range) * list Z)
  : option (gmap Z (list range) * list Z) :=
  match rows with
  | [] => Some st
  | row :: rows' => st' ← scan_row sensors st row; scan_rows sensors rows' st'
  end.

(** Inner loop of the search: [Some (x, row)] at the [return]. *)
Fixpoint search_pairs (row_coverage : gmap Z (list range)) (row : Z)
    (pairs : list (range * range)) : option (Z * Z) :=
  match pairs with
  | [] => None
  | (left_, right_) :: pairs' =>
      match gap_x left_ right_ with
      | Some x =>
          let covered_above := covered_in row_coverage (row - 1) x in
          let covered_below := covered_in row_coverage (row + 1) x in
          if covered_above && covered_below then Some (x, row)
          else search_pairs row_coverage row pairs'
      | None => search_pairs row_coverage row pairs'
      end
  end.

(** Outer loop of the search; [row_coverage[row]] raises [KeyError] on a
    missing key. *)
Fixpoint search_rows (row_coverage : gmap Z (list range))
    (row_candidates : list Z) : option (option (Z * Z)) :=
  match row_candidates with
  | [] => Some None
  | row :: rows' =>
      coverage ← row_coverage !! row;
      match search_pairs row_coverage row (pairwise coverage) with
      | Some found => Some (Some found)
      | None => search_rows row_coverage rows'
      end
  end.

(** Both loops of [part2]: the point and row at the [return] inside the
    loops, or [None] when the loops run to their end. *)
Definition find_gap (sensors : gset Sensor) (search_area_size : Z)
  : option (option (Z * Z)) :=
  st ← scan_rows sensors (seqZ 0 (search_area_size + 1)) (∅, []);
  search_rows st.1 st.2.

Definition part2 (data : gmap Coord Coord) (search_area_size : Z) : option Z :=
  found ← find_gap (sensors_of data) search_area_size;
  Some (match found with
        | Some (x, row) => x * 4000000 + row
        | None => -1
        end).

(** ** [parse] *)

(** A [str] is modelled as a sequence of characters with code points below
    256.  Among those, the class [\d] of the pattern holds the ten digits
    ["0"] to ["9"] only. *)
Definition is_digit (c : ascii) : bool :=
  let n := N_of_ascii c in (48 <=? n)%N && (n <=? 57)%N.

(** The longest prefix of digits, and what follows it. *)
Fixpoint span_digits (s : string) : string * string :=
  match s with
  | String c s' =>
      if is_digit c then
        let '(d, rest) := span_digits s' in (String c d, rest)
      else (EmptyString, s)
  | EmptyString => (EmptyString, EmptyString)
  end.

(** A group [(\d+)].  In [input_regex] every group is followed by a character
    that is no digit or by the end of the line, so a match, if any, gives the
    group the longest run of digits. *)
Definition match_digits (s : string) : option (string * string) :=
  match span_digits s with
  | (EmptyString, _) => None
  | (d, rest) => Some (d, rest)
  end.

(** A literal piece of the pattern; the rest of the text on success. *)
Fixpoint match_literal (lit s : string) : option string :=
  match lit with
  | EmptyString => Some s
  | String c lit' =>
      match s with
      | String c' s' => if Ascii.eqb c c' then match_literal lit' s' else None
      | EmptyString => None
      end
  end.

(** [$] without [re.MULTILINE]: the end of the text, or a newline that ends
    the text. *)
Definition match_end (s : string) : bool :=
  String.eqb s EmptyString || String.eqb s (String "010" EmptyString).

(** [input_regex.match(line)]: the four groups, or [None]. *)
Definition input_regex_match (line : string)
  : option (string * string * string * string) :=
  s ← match_literal "Sensor at x=" line;
  '(g1, s) ← match_digits s;
  s ← match_literal ", y=" s;
  '(g2, s) ← match_digits s;
  s ← match_literal ": closest beacon is at x=" s;
  '(g3, s) ← match_digits s;
  s ← match_literal ", y=" s;
  '(g4, s) ← match_digits s;
  if match_end s then Some (g1, g2, g3, g4) else None.

(** [int] on a string of digits. *)
Definition digit_value (c : ascii) : Z := Z.of_N (N_of_ascii c) - 48.

Fixpoint int_from (acc : Z) (d : string) : Z :=
  match d with
  | EmptyString => acc
  | String c d' => int_from (acc * 10 + digit_value c) d'
  end.

(** CPython refuses to convert a numeral of more than
    [sys.int_info.default_max_str_digits] digits, leading zeros included. *)
Definition int_max_str_digits : Z := 4300.

(** [int] on a string of digits: [ValueError] on a numeral that is too
    long. *)
Definition int (d : string) : option Z :=
  if Z.of_nat (String.length d) <=? int_max_str_digits
  then Some (int_from 0 d)
  else None.

(** A [for] loop whose body may raise: the first exception ends the loop. *)
Fixpoint for_each {A B} (body : A → B → option A) (acc : A) (items : list B)
  : option A :=
  match items with
  | [] => Some acc
  | item :: items' => acc' ← body acc item; for_each body acc' items'
  end.

(** [str.splitlines]: the line boundaries below code point 256 are
    [\n], [\r], [\r\n], [\v], [\f], [\x1c], [\x1d], [\x1e] and [\x85]. *)
Definition is_linebreak (c : ascii) : bool :=
  bool_decide (N_of_ascii c ∈ [10; 11; 12; 13; 28; 29; 30; 133]%N).

Fixpoint splitlines_from (cur s : string) : list string :=
  match s with
  | EmptyString => if String.eqb cur EmptyString then [] else [cur]
  | String c s' =>
      if is_linebreak c then
        match s' with
        | String c' s'' =>
            if Ascii.eqb c "013" && Ascii.eqb c' "010"
            then cur :: splitlines_from EmptyString s''
            else cur :: splitlines_from EmptyString s'
        | EmptyString => [cur]
        end
      else splitlines_from (String.append cur (String c EmptyString)) s'
  end.

Definition splitlines (s : string) : list string :=
  splitlines_from EmptyString s.

(** The body of the loop of [parse]: a line that does not match is skipped. *)
Definition parse_line (data : gmap Coord Coord) (line : string)
  : option (gmap Coord Coord) :=
  match input_regex_match line with
  | Some (g1, g2, g3, g4) =>
      sensor_x ← int g1;
      sensor_y ← int g2;
      let sensor := mkCoord sensor_x sensor_y in
      beacon_x ← int g3;
      beacon_y ← int g4;
      let beacon := mkCoord beacon_x beacon_y in
      Some (<[sensor := beacon]> data)
  | None => Some data
  end.

Definition parse (puzzle_input : string) : option (gmap Coord Coord) :=
  for_each parse_line ∅ (splitlines puzzle_input).

(** The documented line format, with the integers written in decimal and a
    minus sign before a negative one. *)
Definition show_int (n : Z) : string := NilZero.string_of_int (Z.to_int n).

Definition format_line (sx sy bx by_ : Z) : string :=
  ("Sensor at x=" ++ show_int sx ++ ", y=" ++ show_int sy
   ++ ": closest beacon is at x=" ++ show_int bx ++ ", y=" ++ show_int by_)%string.

(** ** Specification vocabulary *)

(** A range is an interval when its start is at most its end. *)
Definition valid (r : range) : Prop := r.1 <= r.2.

(** The integer point [p] lies in one of the ranges of [l]. *)
Definition covers (l : list range) (p : Z) : Prop :=
  Exists (λ r, r.1 <= p <= r.2) l.

(** At least one uncovered cell lies between [a] and [b]. *)
Definition gap2 (a b : range) : Prop := a.2 + 2 <= b.1.

Definition by_start (a b : range) : Prop := a.1 <= b.1.

(** The cells of a list of intervals: the sum of [end - start + 1]. *)
Fixpoint interval_cells (merged : list range) : Z :=
  match merged with
  | [] => 0
  | (start, end_) :: merged' => (end_ - start + 1) + interval_cells merged'
  end.

(** Every character of the string is a digit. *)
Fixpoint all_digits (s : string) : Prop :=
  match s with
  | EmptyString => True
  | String c s' => is_digit c = true ∧ all_digits s'
  end.

(** The string does not begin with a digit. *)
Definition no_digit_head (s : string) : Prop :=
  match s with
  | EmptyString => True
  | String c _ => is_digit c = false
  end.

Definition nonneg (c : Coord) : Prop := 0 <= x c ∧ 0 <= y c.

(** The decimal numeral of [n] is not longer than [int] accepts. *)
Definition short (n : Z) : Prop :=
  Z.of_nat (String.length (show_int n)) <= int_max_str_digits.

(** The loop of [blend_coverage_ranges] seen from its last kept range [k]:
    the ranges before [k] are never touched again. *)
Fixpoint blend_from (k : range) (rest : list range) : list range :=
  match rest with
  | [] => [k]
  | (start, end_) :: rest' =>
      if (start <=? k.2 + 1) && (end_ >=? k.2) then blend_from (k.1, end_) rest'
      else if (start <=? k.2) && (end_ <=? k.2) then blend_from k rest'
      else k :: blend_from (start, end_) rest'
  end.

(** ** Inputs used in the examples *)

(** One sensor of radius 1 at the origin. *)
Definition one_sensor : gmap Coord Coord := {[ mkCoord 0 0 := mkCoord 1 0 ]}.

(** A sensor of radius 1 at (4,0) and one at (6,2): on row 1 they leave the
    single cell x = 5 between them. *)
Definition two_sensors : gmap Coord Coord :=
  {[ mkCoord 4 0 := mkCoord 4 1; mkCoord 6 2 := mkCoord 7 2 ]}.

(** The fourteen sensors of the puzzle's example. *)
Definition example_data : gmap Coord Coord :=
  list_to_map
    [(mkCoord 2 18, mkCoord (-2) 15); (mkCoord 9 16, mkCoord 10 16);
     (mkCoord 13 2, mkCoord 15 3); (mkCoord 12 14, mkCoord 10 16);
     (mkCoord 10 20, mkCoord 10 16); (mkCoord 14 17, mkCoord 10 16);
     (mkCoord 8 7, mkCoord 2 10); (mkCoord 2 0, mkCoord 2 10);
     (mkCoord 0 11, mkCoord 2 10); (mkCoord 20 14, mkCoord 25 17);
     (mkCoord 17 20, mkCoord 21 22); (mkCoord 20 1, mkCoord 15 3);
     (mkCoord 16 7, mkCoord 15 3); (mkCoord 14 3, mkCoord 15 3)].

Definition example_ranges : list range :=
  [(6, 8); (2, 4); (3, 3); (12, 12); (9, 10)].

(** ** The remaining functions of the module *)

(** The built-ins [min] and [max] over a generator: [ValueError] on an empty
    one. *)
Definition py_min (l : list Z) : option Z :=
  match l with
  | [] => None
  | a :: l' => Some (foldl Z.min a l')
  end.

Definition py_max (l : list Z) : option Z :=
  match l with
  | [] => None
  | a :: l' => Some (foldl Z.max a l')
  end.

(** [coord.Boundaries], whose declaration is missing: the four bounds, in
    the order in which [get_scan_coverage_bounds] passes them and under the
    names by which [grid_repr] reads them. *)
Record Boundaries : Set :=
  mkBoundaries { min_x : Z; max_x : Z; min_y : Z; max_y : Z }.

Definition get_scan_coverage_bounds (sensors : gset Sensor) : option Boundaries :=
  let sensors := elements sensors in
  min_x ← py_min ((λ sensor, x (coord sensor) - scan_range sensor) <$> sensors);
  max_x ← py_max ((λ sensor, x (coord sensor) + scan_range sensor) <$> sensors);
  min_y ← py_min ((λ sensor, y (coord sensor) - scan_range sensor) <$> sensors);
  max_y ← py_max ((λ sensor, y (coord sensor) + scan_range sensor) <$> sensors);
  Some (mkBoundaries min_x max_x min_y max_y).

Definition SENSOR : string := "S".
Definition BEACON : string := "B".

(** [data_to_grid], on [data.items()] in the order of the dict: the sensor
    is written first, then its beacon; a later write replaces an earlier
    one, so the grid can depend on that order. *)
Definition data_to_grid (items : list (Coord * Coord)) : gmap Coord string :=
  foldl (λ grid '(sensor, beacon),
           <[beacon := BEACON]> (<[sensor := SENSOR]> grid))
        ∅ items.

Definition solve (puzzle_input : string) (row search_area_size : Z)
  : option (Z * Z) :=
  data ← parse puzzle_input;
  solution1 ← part1 data row;
  solution2 ← part2 data search_area_size;
  Some (solution1, solution2).

(** A text of lines in the documented format, one per pair of sensor and
    beacon, each ended by a newline. *)
Fixpoint format_lines (pairs : list (Coord * Coord)) : string :=
  match pairs with
  | [] => EmptyString
  | (sensor, beacon) :: pairs' =>
      String.append
        (format_line (x sensor) (y sensor) (x beacon) (y beacon))
        (String "010" (format_lines pairs'))
  end.

(** No character of the string is a line boundary. *)
Fixpoint no_linebreak (s : string) : Prop :=
  match s with
  | EmptyString => True
  | String c s' => is_linebreak c = false ∧ no_linebreak s'
  end.

(** ** Day 5: [advent_of_code_2022/day_05/aoc_2022_05.py] *)

Module Day05.

(** The class [Move]. *)
Record Move : Set := mkMove { count : Z; source : Z; target : Z }.

(** [COMMAND_PATTERN.match(line)] for [move (\d+) from (\d+) to (\d+)]: the
    pattern is tied to the start of the line only, what follows the third
    number is not looked at. *)
Definition command_pattern_match (line : string)
  : option (string * string * string) :=
  s ← match_literal "move " line;
  '(g1, s) ← match_digits s;
  s ← match_literal " from " s;
  '(g2, s) ← match_digits s;
  s ← match_literal " to " s;
  '(g3, _) ← match_digits s;
  Some (g1, g2, g3).

(** The body of the loop of [parse_moves]. *)
Definition parse_moves_line (commands : list Move) (line : string)
  : option (list Move) :=
  match command_pattern_match line with
  | Some (g1, g2, g3) =>
      count ← int g1;
      source ← int g2;
      target ← int g3;
      Some (commands ++ [mkMove count source target])
  | None => Some commands
  end.

Definition parse_moves (moves_input : string) : option (list Move) :=
  for_each parse_moves_line [] (splitlines moves_input).

(** The second group of [INIT_PATTERN], any characters but a newline: the
    characters up to the first newline. *)
Fixpoint span_line (s : string) : string :=
  match s with
  | EmptyString => EmptyString
  | String c s' => if Ascii.eqb c "010" then EmptyString else String c (span_line s')
  end.

(** [INIT_PATTERN.match(line)]: digits, a colon, then the rest of the
    line. *)
Definition init_pattern_match (line : string) : option (string * string) :=
  '(g1, s) ← match_digits line;
  s ← match_literal ":" s;
  Some (g1, span_line s).

(** [str.isspace] on a character, for the code points below 256. *)
Definition is_space (c : ascii) : bool :=
  bool_decide (N_of_ascii c ∈ [9; 10; 11; 12; 13; 28; 29; 30; 31; 32; 133; 160]%N).

Fixpoint lstrip (s : string) : string :=
  match s with
  | EmptyString => EmptyString
  | String c s' => if is_space c then lstrip s' else s
  end.

(** [rstrip]: a character is dropped when it is a space and nothing is left
    after it. *)
Fixpoint rstrip (s : string) : string :=
  match s with
  | EmptyString => EmptyString
  | String c s' =>
      match rstrip s' with
      | EmptyString => if is_space c then EmptyString else String c EmptyString
      | t => String c t
      end
  end.

(** [str.strip] without argument. *)
Definition strip (s : string) : string := rstrip (lstrip s).

(** [s.split(",")]: the pieces between the commas; never an empty list. *)
Fixpoint split_comma (s : string) : list string :=
  match s with
  | EmptyString => [EmptyString]
  | String c s' =>
      if Ascii.eqb c ","
      then EmptyString :: split_comma s'
      else match split_comma s' with
           | piece :: pieces => String c piece :: pieces
           | [] => [String c EmptyString]
           end
  end.

(** The body of the loop of [parse_init]; a [deque] is the list of its
    elements from left to right. *)
Definition parse_init_line (init_data : gmap Z (list string)) (line : string)
  : option (gmap Z (list string)) :=
  match init_pattern_match line with
  | Some (g1, g2) =>
      let stack := reverse (split_comma (strip g2)) in
      k ← int g1;
      Some (<[k := stack]> init_data)
  | None => Some init_data
  end.

Definition parse_init (init_input : string) : option (gmap Z (list string)) :=
  for_each parse_init_line ∅ (splitlines init_input).

(** A command as the puzzle writes it. *)
Definition format_move (m : Move) : string :=
  ("move " ++ show_int (count m) ++ " from " ++ show_int (source m)
   ++ " to " ++ show_int (target m))%string.

Fixpoint format_moves (ms : list Move) : string :=
  match ms with
  | [] => EmptyString
  | m :: ms' => String.append (format_move m) (String "010" (format_moves ms'))
  end.

(** [",".join(pieces)]. *)
Fixpoint join_comma (pieces : list string) : string :=
  match pieces with
  | [] => EmptyString
  | [piece] => piece
  | piece :: pieces' => String.append piece (String "," (join_comma pieces'))
  end.

(** A crate name: no comma and no space of any kind in it. *)
Fixpoint plain (s : string) : Prop :=
  match s with
  | EmptyString => True
  | String c s' => Ascii.eqb c "," = false ∧ is_space c = false ∧ plain s'
  end.

(** No character of the string is a space of any kind. *)
Fixpoint no_space (s : string) : Prop :=
  match s with
  | EmptyString => True
  | String c s' => is_space c = false ∧ no_space s'
  end.

(** A run of [n] blanks. *)
Fixpoint blanks (n : nat) : string :=
  match n with
  | O => EmptyString
  | S n' => String " " (blanks n')
  end.

End Day05.

(** What the first loop of [part2] records for [two_sensors] on rows 0 to 2. *)
Definition two_sensors_scan : gmap Z (list range) * list Z :=
  ({[0 := [(3, 5)]; 1 := [(4, 4); (6, 6)]; 2 := [(5, 7)]]}, [1]).

(** A numeral of [n] zeros. *)
Fixpoint zeros (n : nat) : string :=
  match n with
  | O => EmptyString
  | S n' => String "0" (zeros n')
  end.

(** A recorded coverage in which rows 0 and 2 are covered from 0 to 10. *)
Definition rows_0_2_covered : gmap Z (list range) :=
  {[ 0 := [(0, 10)]; 2 := [(0, 10)] ]}.

(** One sensor of radius 3 at (1,1): it covers rows 0 to 2 without a gap. *)
Definition wide_sensor : gmap Coord Coord := {[ mkCoord 1 1 := mkCoord 1 4 ]}.

(** ** Vocabulary of the further properties *)

(** The integer points of a list of ranges, range after range. *)
Definition points (l : list range) : list Z :=
  l ≫= (λ r, seqZ r.1 (r.2 - r.1 + 1)).

(** The cell [c] is within the scan range of the sensor [s]. *)
Definition reaches (s : Sensor) (c : Coord) : Prop :=
  distance (coord s) c <= scan_range s.

(** * Properties of [blend_coverage_ranges] *)

Section Blend.

Implicit Types (r k : range) (l rest ranges : list range) (p : Z).

Lemma covers_nil p : covers [] p ↔ False.
Proof. unfold covers. by rewrite Exists_nil. Qed.

Lemma covers_cons r l p : covers (r :: l) p ↔ r.1 <= p <= r.2 ∨ covers l p.
Proof. unfold covers. by rewrite Exists_cons. Qed.

Lemma covers_Permutation l l' p : l ≡ₚ l' → covers l p ↔ covers l' p.
Proof. intros Hp. unfold covers. by rewrite Hp. Qed.

Lemma covers_is_covered l p : is_covered l p = true ↔ covers l p.
Proof.
  induction l as [|[s e] l IH]; simpl.
  - rewrite covers_nil. split; [discriminate | tauto].
  - rewrite covers_cons. simpl.
    destruct (Z.leb_spec s p), (Z.leb_spec p e); simpl;
      rewrite ?IH; intuition lia.
Qed.

(** *** The sort *)

Lemma insert_by_start_Permutation r l : insert_by_start r l ≡ₚ r :: l.
Proof.
  induction l as [|r' l IH]; simpl; [done |].
  case_match; [done |]. rewrite IH. apply Permutation_swap.
Qed.

Lemma sorted_Permutation l : sorted l ≡ₚ l.
Proof.
  induction l as [|r l IH]; simpl; [done |].
  by rewrite insert_by_start_Permutation, IH.
Qed.

Lemma insert_by_start_sorted r l :
  StronglySorted by_start l → StronglySorted by_start (insert_by_start r l).
Proof.
  induction 1 as [|r' l Hl IH Hall]; simpl.
  - repeat constructor.
  - destruct (Z.leb_spec r.1 r'.1) as [Hle|Hlt].
    + constructor; [by constructor |].
      constructor; [done |].
      eapply Forall_impl; [exact Hall |]. unfold by_start. intros; lia.
    + constructor; [done |].
      rewrite insert_by_start_Permutation.
      constructor; [unfold by_start; lia | done].
Qed.

Lemma sorted_sorted l : StronglySorted by_start (sorted l).
Proof.
  induction l; simpl; [constructor | by apply insert_by_start_sorted].
Qed.

(** A list already in order of start is left as it is. *)
Lemma sorted_id l : Sorted by_start l → sorted l = l.
Proof.
  induction 1 as [|r l Hl IH Hhd]; simpl; [done |].
  rewrite IH. destruct Hhd as [|r' l' Hrr']; simpl; [done |].
  unfold by_start in Hrr'. by rewrite (proj2 (Z.leb_le _ _) Hrr').
Qed.

(** *** The loop *)

Lemma foldl_blend_step init k rest :
  foldl blend_step (init ++ [k]) rest = init ++ blend_from k rest.
Proof.
  revert init k. induction rest as [|[s e] rest IH]; intros init [ks ke]; [done |].
  cbn [foldl blend_from]. unfold blend_step at 2.
  rewrite last_snoc. cbn [fst snd].
  destruct ((s <=? ke + 1) && (e >=? ke)) eqn:Hmerge.
  { replace (length (init ++ [(ks, ke)]) - 1)%nat with (length init + 0)%nat
      by (rewrite length_app; simpl; lia).
    rewrite insert_app_r. simpl. apply IH. }
  destruct ((s <=? ke) && (e <=? ke)) eqn:Hin; [apply IH |].
  rewrite (IH (init ++ [(ks, ke)])). by rewrite <-(assoc_L (++)).
Qed.

Lemma blend_coverage_ranges_from ranges :
  blend_coverage_ranges ranges =
  match sorted ranges with
  | [] => None
  | r0 :: rest => Some (blend_from r0 (r0 :: rest))
  end.
Proof.
  unfold blend_coverage_ranges. destruct (sorted ranges) as [|r0 rest]; [done |].
  simpl. f_equal. apply (foldl_blend_step [] r0 (r0 :: rest)).
Qed.

(** What the loop keeps, for intervals that arrive in order of start. *)
Lemma blend_from_spec rest : ∀ k,
  valid k → Forall valid rest →
  Forall (by_start k) rest → StronglySorted by_start rest →
  Forall valid (blend_from k rest)
  ∧ Forall (by_start k) (blend_from k rest)
  ∧ StronglySorted gap2 (blend_from k rest)
  ∧ ∀ p, covers (blend_from k rest) p ↔ covers (k :: rest) p.
Proof.
  induction rest as [|[s e] rest IH]; intros [ks ke] Hk Hv Hge Hs.
  { simpl. split_and!; try done.
    - by constructor.
    - constructor; [unfold by_start; lia | constructor].
    - repeat constructor. }
  apply Forall_cons in Hv as [Hse Hv]. apply Forall_cons in Hge as [Hks Hge].
  apply StronglySorted_inv in Hs as [Hs Hsrest].
  unfold valid, by_start in Hk, Hse, Hks. simpl in Hk, Hse, Hks.
  cbn [blend_from fst snd].
  destruct (Z.leb_spec s (ke + 1)) as [H1|H1];
    [destruct (Z.geb_spec e ke) as [H2|H2] |]; cbn [andb].
  - (* the kept range grows *)
    destruct (IH (ks, e)) as (IH1 & IH2 & IH3 & IH4); try done.
    { unfold valid; simpl; lia. }
    split_and!; try done.
    intros p. rewrite IH4, !covers_cons. simpl. intuition lia.
  - (* the range lies inside the kept one *)
    destruct (Z.leb_spec s ke) as [H3|H3]; [|lia].
    destruct (Z.leb_spec e ke) as [H4|H4]; [|lia]. cbn [andb].
    destruct (IH (ks, ke)) as (IH1 & IH2 & IH3 & IH4); try done.
    split_and!; try done.
    intros p. rewrite IH4, !covers_cons. simpl. intuition lia.
  - (* a new range starts after a gap *)
    destruct (Z.leb_spec s ke) as [H3|H3]; [lia |]. cbn [andb].
    destruct (IH (s, e)) as (IH1 & IH2 & IH3 & IH4); try done.
    split_and!.
    + by constructor.
    + constructor; [unfold by_start; simpl; lia |].
      eapply Forall_impl; [exact IH2 |]. unfold by_start; simpl; intros; lia.
    + constructor; [done |].
      eapply Forall_impl; [exact IH2 |]. unfold by_start, gap2; simpl; intros; lia.
    + intros p. rewrite covers_cons, IH4, !covers_cons. simpl. tauto.
Qed.

(** A list of intervals with a gap between any two of them is blended into
    itself. *)
Lemma blend_from_canonical rest : ∀ k,
  Forall valid (k :: rest) → StronglySorted gap2 (k :: rest) →
  blend_from k rest = k :: rest.
Proof.
  induction rest as [|[s e] rest IH]; intros [ks ke] Hv Hs; [done |].
  apply Forall_cons in Hv as [Hk Hv].
  apply StronglySorted_inv in Hs as [Hs Hg].
  apply Forall_cons in Hg as [Hg _].
  unfold valid, gap2 in Hk, Hg. simpl in Hk, Hg.
  cbn [blend_from fst snd].
  destruct (Z.leb_spec s (ke + 1)); [lia |].
  destruct (Z.leb_spec s ke); [lia |]. cbn [andb].
  f_equal. by apply IH.
Qed.

Lemma blend_from_cons k rest : ∃ k' out, blend_from k rest = k' :: out.
Proof.
  revert k. induction rest as [|[s e] rest IH]; intros k; simpl; [by eauto |].
  repeat case_match; eauto.
Qed.

Lemma StronglySorted_lookup {A} (R : relation A) (l : list A) i j a b :
  StronglySorted R l → (i < j)%nat →
  l !! i = Some a → l !! j = Some b → R a b.
Proof.
  intros Hs. revert i j. induction Hs as [|c l Hs IH Hall]; intros i j Hij Hi Hj.
  { by rewrite lookup_nil in Hi. }
  destruct j as [|j]; [lia |]. simpl in Hj. destruct i as [|i]; simpl in Hi.
  - injection Hi as ->. rewrite Forall_forall in Hall.
    apply Hall. by eapply list_elem_of_lookup_2.
  - apply (IH i j); [lia | done | done].
Qed.

Lemma gap2_by_start l :
  Forall valid l → StronglySorted gap2 l → Sorted by_start l.
Proof.
  intros Hv Hs. induction Hs as [|a l Hs IH Hall]; [constructor |].
  apply Forall_cons in Hv as [Ha Hv]. constructor; [by apply IH |].
  destruct Hall as [|b l Hab _]; constructor.
  unfold gap2 in Hab. unfold valid in Ha. unfold by_start. lia.
Qed.

(** The result of the blend: a non-empty list of intervals, a gap between
    any two of them, over the points of the input. *)
Lemma blend_coverage_ranges_canonical ranges :
  ranges ≠ [] → Forall valid ranges →
  ∃ o out, blend_coverage_ranges ranges = Some (o :: out)
    ∧ Forall valid (o :: out)
    ∧ StronglySorted gap2 (o :: out)
    ∧ ∀ p, covers (o :: out) p ↔ covers ranges p.
Proof.
  intros Hne Hv. rewrite blend_coverage_ranges_from.
  pose proof (sorted_Permutation ranges) as Hperm.
  pose proof (sorted_sorted ranges) as Hsorted.
  destruct (sorted ranges) as [|r0 rest] eqn:Hsort.
  { symmetry in Hperm. by apply Permutation_nil_r in Hperm. }
  assert (Forall valid (r0 :: rest)) as Hv' by (by rewrite Hperm).
  destruct (blend_from_spec (r0 :: rest) r0) as (H1 & _ & H3 & H4); try done.
  { by eapply Forall_cons_1. }
  { constructor; [unfold by_start; lia |].
    by apply StronglySorted_inv in Hsorted as [_ ?]. }
  destruct (blend_from_cons r0 (r0 :: rest)) as (o & out & Hout).
  rewrite Hout in *. exists o, out. split_and!; try done.
  intros p. rewrite H4, <-(covers_Permutation _ _ p Hperm), !covers_cons. tauto.
Qed.

Lemma blend_coverage_ranges_fixed o out :
  Forall valid (o :: out) → StronglySorted gap2 (o :: out) →
  blend_coverage_ranges (o :: out) = Some (o :: out).
Proof.
  intros Hv Hs. rewrite blend_coverage_ranges_from.
  rewrite (sorted_id (o :: out)) by (by apply gap2_by_start).
  f_equal. destruct o as [s e]. cbn [blend_from fst snd].
  apply Forall_cons in Hv as [Ho Hv']. unfold valid in Ho; simpl in Ho.
  destruct (Z.leb_spec s (e + 1)); [| lia].
  destruct (Z.geb_spec e e); [| lia]. cbn [andb].
  apply blend_from_canonical; [by constructor | done].
Qed.

(** *** Uniqueness of the blended form *)

Lemma covers_after a l p :
  Forall (gap2 a) l → covers l p → a.2 + 2 <= p.
Proof.
  unfold covers. rewrite Forall_forall, Exists_exists.
  intros Hall (r & Hr & Hp). specialize (Hall r Hr). unfold gap2 in Hall. lia.
Qed.

Lemma canonical_unique l1 : ∀ l2,
  Forall valid l1 → StronglySorted gap2 l1 →
  Forall valid l2 → StronglySorted gap2 l2 →
  (∀ p, covers l1 p ↔ covers l2 p) → l1 = l2.
Proof.
  induction l1 as [|[a1 a2] l1 IH]; intros [|[b1 b2] l2] Hv1 Hs1 Hv2 Hs2 Hc.
  - done.
  - apply Forall_cons in Hv2 as [Hb _]. unfold valid in Hb; simpl in Hb.
    specialize (Hc b1). rewrite covers_nil, covers_cons in Hc. simpl in Hc. lia.
  - apply Forall_cons in Hv1 as [Ha _]. unfold valid in Ha; simpl in Ha.
    specialize (Hc a1). rewrite covers_nil, covers_cons in Hc. simpl in Hc. lia.
  - apply Forall_cons in Hv1 as [Ha Hv1]. apply Forall_cons in Hv2 as [Hb Hv2].
    apply StronglySorted_inv in Hs1 as [Hs1 Hg1].
    apply StronglySorted_inv in Hs2 as [Hs2 Hg2].
    unfold valid in Ha, Hb; simpl in Ha, Hb.
    pose proof (λ p, covers_after _ _ p Hg1) as Hafter1.
    pose proof (λ p, covers_after _ _ p Hg2) as Hafter2.
    simpl in Hafter1, Hafter2.
    assert (∀ p, (a1 <= p <= a2 ∨ covers l1 p) ↔ (b1 <= p <= b2 ∨ covers l2 p))
      as Hc'.
    { intros p. specialize (Hc p). by rewrite !covers_cons in Hc. }
    assert (∀ p, a1 <= p <= a2 → b1 <= p <= b2 ∨ b2 + 2 <= p) as Hfwd.
    { intros p Hp. destruct (proj1 (Hc' p) (or_introl Hp)) as [?|?%Hafter2]; tauto. }
    assert (∀ p, b1 <= p <= b2 → a1 <= p <= a2 ∨ a2 + 2 <= p) as Hbwd.
    { intros p Hp. destruct (proj2 (Hc' p) (or_introl Hp)) as [?|?%Hafter1]; tauto. }
    assert (a1 = b1) as <-.
    { pose proof (Hfwd a1). pose proof (Hbwd b1). lia. }
    assert (a2 = b2) as <-.
    { pose proof (Hfwd a2). pose proof (Hbwd b2).
      pose proof (Hbwd (a2 + 1)). pose proof (Hfwd (b2 + 1)). lia. }
    f_equal. apply IH; try done.
    intros p. split; intros Hp.
    + pose proof (Hafter1 p Hp).
      destruct (proj1 (Hc' p) (or_intror Hp)) as [?|?]; [lia | done].
    + pose proof (Hafter2 p Hp).
      destruct (proj2 (Hc' p) (or_intror Hp)) as [?|?]; [lia | done].
Qed.

(** The blend depends on the intervals only, not on the order in which they
    are handed over: the enumeration order of a set of sensors is
    irrelevant. *)
Lemma blend_coverage_ranges_Permutation l l' :
  l ≡ₚ l' → Forall valid l →
  blend_coverage_ranges l = blend_coverage_ranges l'.
Proof.
  intros Hp Hv. destruct l as [|r l0].
  { apply Permutation_nil_l in Hp. by subst. }
  assert (l' ≠ []) as Hne'.
  { intros ->. by apply Permutation_nil_r in Hp. }
  assert (Forall valid l') as Hv' by (by rewrite <-Hp).
  destruct (blend_coverage_ranges_canonical (r :: l0)) as (o & out & -> & A1 & A2 & A3);
    [done | done |].
  destruct (blend_coverage_ranges_canonical l') as (o' & out' & -> & B1 & B2 & B3);
    [done | done |].
  f_equal. apply canonical_unique; try done.
  intros p. by rewrite A3, B3, (covers_Permutation _ _ p Hp).
Qed.

End Blend.

(** C1: for a non-empty list of intervals, [blend_coverage_ranges] returns
    intervals in strictly increasing order of start, any two of them apart by
    a gap of at least 2 (so pairwise disjoint), whose integer points are
    exactly the integer points of the input. *)
Theorem blend_coverage_ranges_correct (ranges : list range) :
  ranges ≠ [] → Forall valid ranges →
  ∃ out, blend_coverage_ranges ranges = Some out
    ∧ Forall valid out
    ∧ (∀ i j a b, (i < j)%nat → out !! i = Some a → out !! j = Some b →
         a.1 < b.1 ∧ a.2 + 2 <= b.1)
    ∧ (∀ i j a b p, i ≠ j → out !! i = Some a → out !! j = Some b →
         a.1 <= p <= a.2 → ¬ b.1 <= p <= b.2)
    ∧ (∀ p, covers out p ↔ covers ranges p).
Proof.
  intros Hne Hv.
  destruct (blend_coverage_ranges_canonical ranges Hne Hv)
    as (o & out & Hout & Hvo & Hs & Hc).
  exists (o :: out).
  assert (∀ i j a b, (i < j)%nat →
            (o :: out) !! i = Some a → (o :: out) !! j = Some b →
            a.1 < b.1 ∧ a.2 + 2 <= b.1) as Hgap.
  { intros i j a b Hij Hi Hj.
    pose proof (StronglySorted_lookup _ _ _ _ _ _ Hs Hij Hi Hj) as Hab.
    rewrite Forall_forall in Hvo.
    pose proof (Hvo a (list_elem_of_lookup_2 _ _ _ Hi)) as Ha.
    unfold gap2 in Hab. unfold valid in Ha. lia. }
  split_and!; try done.
  intros i j a b p Hij Hi Hj Hpa Hpb.
  rewrite Forall_forall in Hvo.
  pose proof (Hvo a (list_elem_of_lookup_2 _ _ _ Hi)) as Ha.
  pose proof (Hvo b (list_elem_of_lookup_2 _ _ _ Hj)) as Hb.
  unfold valid in Ha, Hb.
  destruct (decide (i < j)%nat).
  - pose proof (Hgap i j a b ltac:(lia) Hi Hj). lia.
  - pose proof (Hgap j i b a ltac:(lia) Hj Hi). lia.
Qed.

Lemma blend_coverage_ranges_correct_witness :
  ∃ out, blend_coverage_ranges example_ranges = Some out
    ∧ Forall valid out
    ∧ (∀ i j a b, (i < j)%nat → out !! i = Some a → out !! j = Some b →
         a.1 < b.1 ∧ a.2 + 2 <= b.1)
    ∧ (∀ i j a b p, i ≠ j → out !! i = Some a → out !! j = Some b →
         a.1 <= p <= a.2 → ¬ b.1 <= p <= b.2)
    ∧ (∀ p, covers out p ↔ covers example_ranges p).
Proof.
  apply (blend_coverage_ranges_correct example_ranges).
  - discriminate.
  - repeat constructor; unfold valid; simpl; lia.
Defined.

(** C7: [blend_coverage_ranges] is idempotent: blending the result of a blend
    of a non-empty list of intervals returns that result unchanged. *)
Theorem blend_coverage_ranges_idempotent (ranges : list range) :
  ranges ≠ [] → Forall valid ranges →
  ∃ out, blend_coverage_ranges ranges = Some out
    ∧ blend_coverage_ranges out = Some out.
Proof.
  intros Hne Hv.
  destruct (blend_coverage_ranges_canonical ranges Hne Hv)
    as (o & out & Hout & Hvo & Hs & _).
  exists (o :: out). split; [done |].
  by apply blend_coverage_ranges_fixed.
Qed.

Lemma blend_coverage_ranges_idempotent_witness :
  ∃ out, blend_coverage_ranges example_ranges = Some out
    ∧ blend_coverage_ranges out = Some out.
Proof.
  apply (blend_coverage_ranges_idempotent example_ranges).
  - discriminate.
  - repeat constructor; unfold valid; simpl; lia.
Defined.

(** * The interval of one sensor on a row *)

(** C8: [compute_row_interval] is absent exactly when
    [radius - |r - S.y|] is negative, and is otherwise the interval
    [[S.x - span, S.x + span]]; on the sensor's own row it is centred on
    [S.x] with half-width [radius]. *)
Theorem compute_row_interval_spec (S : Sensor) (r : Z) :
  0 <= scan_range S →
  (compute_row_interval S r = None
   ↔ scan_range S - Z.abs (r - y (coord S)) < 0)
  ∧ (0 <= scan_range S - Z.abs (r - y (coord S)) →
     compute_row_interval S r
     = Some (x (coord S) - (scan_range S - Z.abs (r - y (coord S))),
             x (coord S) + (scan_range S - Z.abs (r - y (coord S)))))
  ∧ compute_row_interval S (y (coord S))
    = Some (x (coord S) - scan_range S, x (coord S) + scan_range S).
Proof.
  intros Hr. unfold compute_row_interval. split_and!.
  - destruct (Z.ltb_spec (scan_range S - Z.abs (r - y (coord S))) 0);
      split; (done || lia).
  - intros Hs.
    destruct (Z.ltb_spec (scan_range S - Z.abs (r - y (coord S))) 0); [lia | done].
  - replace (y (coord S) - y (coord S)) with 0 by lia. simpl.
    rewrite Z.sub_0_r. destruct (Z.ltb_spec (scan_range S) 0); [lia | done].
Qed.

Lemma compute_row_interval_spec_witness :
  (compute_row_interval (mkSensor (mkCoord 8 7) 9) 10 = None ↔ 9 - Z.abs (10 - 7) < 0)
  ∧ (0 <= 9 - Z.abs (10 - 7) →
     compute_row_interval (mkSensor (mkCoord 8 7) 9) 10
     = Some (8 - (9 - Z.abs (10 - 7)), 8 + (9 - Z.abs (10 - 7))))
  ∧ compute_row_interval (mkSensor (mkCoord 8 7) 9) 7 = Some (8 - 9, 8 + 9).
Proof.
  apply (compute_row_interval_spec (mkSensor (mkCoord 8 7) 9) 10). simpl. lia.
Defined.

Lemma compute_row_interval_valid S r i :
  compute_row_interval S r = Some i → valid i.
Proof.
  unfold compute_row_interval, valid.
  destruct (Z.ltb_spec (scan_range S - Z.abs (r - y (coord S))) 0); [done |].
  intros [= <-]. simpl. lia.
Qed.

(** * The coverage of a row *)

Lemma coverage_ranges_valid (enum : list Sensor) row :
  Forall valid (omap (λ sensor, get_coverage_at_row sensor row) enum).
Proof.
  rewrite Forall_forall. intros i (S & _ & HS)%list_elem_of_omap.
  by eapply compute_row_interval_valid.
Qed.

(** Whatever the order in which the set of sensors is enumerated, the
    coverage of a row is the same. *)
Lemma get_sensors_coverage_at_row_enum sensors row (enum : list Sensor) :
  enum ≡ₚ elements sensors →
  blend_coverage_ranges (omap (λ sensor, get_coverage_at_row sensor row) enum)
  = get_sensors_coverage_at_row sensors row.
Proof.
  intros Hp. unfold get_sensors_coverage_at_row.
  apply blend_coverage_ranges_Permutation; [by rewrite Hp |].
  apply coverage_ranges_valid.
Qed.

Lemma blend_coverage_ranges_None ranges :
  blend_coverage_ranges ranges = None ↔ ranges = [].
Proof.
  rewrite blend_coverage_ranges_from.
  pose proof (sorted_Permutation ranges) as Hp.
  destruct (sorted ranges) as [|r0 rest]; split; try done.
  - intros _. symmetry in Hp. by apply Permutation_nil_r in Hp.
  - intros ->. by apply Permutation_nil_r in Hp.
Qed.

Lemma omap_nil_iff {A B} (f : A → option B) (l : list A) :
  omap f l = [] ↔ ∀ a, a ∈ l → f a = None.
Proof.
  induction l as [|a l IH]; simpl.
  - split; [intros _ a Ha; by apply elem_of_nil in Ha | done].
  - destruct (f a) eqn:Hfa.
    + split; [done |]. intros H. specialize (H a (list_elem_of_here _ _)). congruence.
    + rewrite IH. split.
      * intros H b [->|Hb]%elem_of_cons; auto.
      * intros H b Hb. apply H. by right.
Qed.

(** C2: the rows handed to the blend are not checked.  When no sensor reaches
    a row the list of ranges is empty and [get_sensors_coverage_at_row]
    raises; this is the case for a sensor of radius 1 at the origin and
    row 2, in [part1] and in [part2] alike. *)
Theorem get_sensors_coverage_at_row_raises :
  (∀ sensors row,
     get_sensors_coverage_at_row sensors row = None
     ↔ ∀ s, s ∈ sensors → get_coverage_at_row s row = None)
  ∧ get_sensors_coverage_at_row {[ mkSensor (mkCoord 0 0) 1 ]} 2 = None
  ∧ sensors_of one_sensor = {[ mkSensor (mkCoord 0 0) 1 ]}
  ∧ part1 one_sensor 2 = None.
Proof.
  split_and!; [| by vm_compute ..].
  intros sensors row. unfold get_sensors_coverage_at_row.
  rewrite blend_coverage_ranges_None, omap_nil_iff.
  by setoid_rewrite elem_of_elements.
Qed.

(** * Counting the covered cells of a row *)

Lemma sum_ints_cells merged :
  sum_ints ((λ '(start, end_), end_ - start + 1) <$> merged) = interval_cells merged.
Proof.
  unfold sum_ints.
  enough (∀ acc, foldl Z.add acc ((λ '(start, end_), end_ - start + 1) <$> merged)
                 = acc + interval_cells merged) as H by (by rewrite H).
  induction merged as [|[s e] merged IH]; intros acc; simpl; [lia |].
  rewrite IH. lia.
Qed.

(** C5: when the row has a coverage, [part1] is the sum of [end - start + 1]
    over the merged intervals of the row, less the number of distinct beacon
    coordinates on that row ([bs] lists each of them once). *)
Theorem part1_covered_count (data : gmap Coord Coord) (row : Z) (merged : list range) :
  get_sensors_coverage_at_row (sensors_of data) row = Some merged →
  ∃ bs : list Coord,
    NoDup bs
    ∧ (∀ b, b ∈ bs ↔ y b = row ∧ ∃ s, data !! s = Some b)
    ∧ part1 data row = Some (interval_cells merged - Z.of_nat (length bs)).
Proof.
  intros Hcov. unfold part1. rewrite Hcov. simpl.
  set (beacons_at_row := list_to_set _ : gset Coord).
  exists (elements beacons_at_row). split_and!.
  - apply NoDup_elements.
  - intros b. rewrite elem_of_elements. unfold beacons_at_row.
    rewrite elem_of_list_to_set, list_elem_of_filter, list_elem_of_fmap.
    split; intros [Hy Hb]; (split; [done |]).
    + destruct Hb as ([s b'] & -> & Hin). exists s. by apply elem_of_map_to_list.
    + destruct Hb as (s & Hs). exists (s, b). split; [done |].
      by apply elem_of_map_to_list.
  - by rewrite sum_ints_cells.
Qed.

Lemma part1_covered_count_witness :
  ∃ bs : list Coord,
    NoDup bs
    ∧ (∀ b, b ∈ bs ↔ y b = 10 ∧ ∃ s, example_data !! s = Some b)
    ∧ part1 example_data 10
      = Some (interval_cells [(-2, 24)] - Z.of_nat (length bs)).
Proof.
  apply (part1_covered_count example_data 10 [(-2, 24)]).
  vm_compute. reflexivity.
Defined.

(** * The search for the uncovered point *)

Lemma elem_of_pairwise {A} (l : list A) (a b : A) :
  (a, b) ∈ pairwise l ↔ ∃ i : nat, l !! i = Some a ∧ l !! S i = Some b.
Proof.
  unfold pairwise, zip. rewrite list_elem_of_lookup.
  setoid_rewrite lookup_zip_with_Some. setoid_rewrite lookup_tail.
  split.
  - intros (i & a' & b' & [= -> ->] & Ha & Hb). eauto.
  - intros (i & Ha & Hb). exists i, a, b. eauto.
Qed.

(** The test on one pair: a one-cell gap exactly when
    [right.start - left.end = 2], the missing x being [left.end + 1]. *)
Lemma gap_x_spec :
  (∀ left_ right_ : range,
     (gap_x left_ right_ = Some (left_.2 + 1) ↔ right_.1 - left_.2 = 2)
     ∧ (gap_x left_ right_ = None ↔ right_.1 - left_.2 ≠ 2)
     ∧ (3 <= right_.1 - left_.2 → gap_x left_ right_ = None))
  ∧ search_pairs ∅ 1 (pairwise [(0, 4); (7, 10)]) = None
  ∧ gap_x (0, 4) (7, 10) = None
  ∧ gap_x (0, 4) (6, 10) = Some 5.
Proof.
  split_and!; try done.
  intros left_ right_. unfold gap_x. case_bool_decide; split_and!; try done; lia.
Qed.

Lemma gap_x_Some left_ right_ px :
  gap_x left_ right_ = Some px ↔ right_.1 - left_.2 = 2 ∧ px = left_.2 + 1.
Proof.
  unfold gap_x. case_bool_decide; split; try done.
  - by intros [= <-].
  - by intros [_ ->].
  - by intros [? _].
Qed.

Section Search.

Implicit Types (sensors : gset Sensor) (rc : gmap Z (list range))
  (st : gmap Z (list range) * list Z) (rows : list Z) (c : list range).

(** Every coverage recorded by the first loop is the coverage of a row that
    the loop went through. *)
Lemma scan_row_lookup sensors st row st' r c :
  scan_row sensors st row = Some st' → st'.1 !! r = Some c →
  st.1 !! r = Some c
  ∨ (r = row ∧ get_sensors_coverage_at_row sensors row = Some c).
Proof.
  unfold scan_row.
  destruct (get_sensors_coverage_at_row sensors row) as [cov|]; [|done].
  simpl. intros [= <-]. destruct (truthy cov); [|auto]. simpl.
  rewrite lookup_insert. case_decide; [|auto].
  intros [= <-]. subst. auto.
Qed.

Lemma scan_rows_lookup sensors rows : ∀ st st' r c,
  scan_rows sensors rows st = Some st' → st'.1 !! r = Some c →
  st.1 !! r = Some c
  ∨ (r ∈ rows ∧ get_sensors_coverage_at_row sensors r = Some c).
Proof.
  induction rows as [|row rows IH]; intros st st' r c; simpl.
  { intros [= <-]. auto. }
  destruct (scan_row sensors st row) as [st1|] eqn:Hrow; [|done]. simpl.
  intros Hrows Hr.
  destruct (IH _ _ _ _ Hrows Hr) as [H1|[Hin Hc]].
  - destruct (scan_row_lookup _ _ _ _ _ _ Hrow H1) as [?|[-> ?]]; [by left |].
    right. split; [by left | done].
  - right. split; [by right | done].
Qed.

(** The first loop stops with an exception at the first row that no sensor
    reaches. *)
Lemma scan_rows_None sensors rows row : ∀ st,
  row ∈ rows → get_sensors_coverage_at_row sensors row = None →
  scan_rows sensors rows st = None.
Proof.
  induction rows as [|r rows IH]; intros st Hin Hnone.
  { by apply elem_of_nil in Hin. }
  simpl. destruct (scan_row sensors st r) as [st1|] eqn:Hrow; [|done]. simpl.
  apply elem_of_cons in Hin as [->|Hin]; [| by apply IH].
  unfold scan_row in Hrow. by rewrite Hnone in Hrow.
Qed.

(** Every candidate row has a recorded coverage. *)
Lemma scan_rows_candidates sensors rows : ∀ st st',
  scan_rows sensors rows st = Some st' →
  (∀ r, r ∈ st.2 → is_Some (st.1 !! r)) →
  ∀ r, r ∈ st'.2 → is_Some (st'.1 !! r).
Proof.
  induction rows as [|row rows IH]; intros st st'; simpl.
  { by intros [= <-]. }
  destruct (scan_row sensors st row) as [st1|] eqn:Hrow; [|done]. simpl.
  intros Hrows Hst. apply (IH _ _ Hrows).
  unfold scan_row in Hrow.
  destruct (get_sensors_coverage_at_row sensors row) as [cov|]; [|done].
  simpl in Hrow. injection Hrow as <-.
  destruct (truthy cov); [|done]. simpl. intros r Hr.
  rewrite lookup_insert. destruct (decide (row = r)); [by eexists |].
  apply Hst. case_bool_decide; [|done].
  apply elem_of_app in Hr as [?|Hr]; [done |].
  apply list_elem_of_singleton in Hr. congruence.
Qed.

Lemma scan_rows_is_Some sensors rows : ∀ st,
  (∀ row, row ∈ rows → is_Some (get_sensors_coverage_at_row sensors row)) →
  is_Some (scan_rows sensors rows st).
Proof.
  induction rows as [|row rows IH]; intros st Hall; simpl; [done |].
  destruct (Hall row) as [cov Hcov]; [by left |].
  unfold scan_row. rewrite Hcov. simpl. apply IH.
  intros r Hr. apply Hall. by right.
Qed.

Lemma covered_in_true rc r px :
  covered_in rc r px = true ↔ ∃ c, rc !! r = Some c ∧ is_covered c px = true.
Proof.
  unfold covered_in. destruct (rc !! r) as [c|]; split.
  - destruct c; [done |]. simpl truthy. cbv iota. eauto.
  - intros (c' & [= <-] & Hc). by destruct c.
  - done.
  - by intros (? & ? & _).
Qed.

Lemma search_pairs_Some rc row pairs px row' :
  search_pairs rc row pairs = Some (px, row') →
  row' = row
  ∧ covered_in rc (row - 1) px = true ∧ covered_in rc (row + 1) px = true
  ∧ ∃ left_ right_, (left_, right_) ∈ pairs ∧ gap_x left_ right_ = Some px.
Proof.
  induction pairs as [|[left_ right_] pairs IH]; simpl; [done |].
  intros Hs.
  assert (search_pairs rc row pairs = Some (px, row') →
          row' = row
          ∧ covered_in rc (row - 1) px = true ∧ covered_in rc (row + 1) px = true
          ∧ ∃ l r, (l, r) ∈ (left_, right_) :: pairs ∧ gap_x l r = Some px) as IH'.
  { intros (? & ? & ? & l & r & ? & ?)%IH. split_and!; try done.
    exists l, r. split; [by right | done]. }
  destruct (gap_x left_ right_) as [x0|] eqn:Hgap; [|auto].
  destruct (covered_in rc (row - 1) x0) eqn:Ha; [|auto].
  destruct (covered_in rc (row + 1) x0) eqn:Hb; [|auto].
  simpl in Hs. injection Hs as <- <-. split_and!; try done.
  exists left_, right_. split; [by left | done].
Qed.

Lemma search_rows_Some rc cands px row :
  search_rows rc cands = Some (Some (px, row)) →
  row ∈ cands
  ∧ ∃ c, rc !! row = Some c ∧ search_pairs rc row (pairwise c) = Some (px, row).
Proof.
  induction cands as [|r cands IH]; simpl; [done |].
  destruct (rc !! r) as [c|] eqn:Hc; [|done]. simpl.
  destruct (search_pairs rc r (pairwise c)) as [[px' row']|] eqn:Hp.
  - intros [= -> ->]. destruct (search_pairs_Some _ _ _ _ _ Hp) as (-> & _).
    split; [by left | eauto].
  - intros (? & ?)%IH. split; [by right | done].
Qed.

Lemma search_rows_is_Some rc cands :
  (∀ r, r ∈ cands → is_Some (rc !! r)) → is_Some (search_rows rc cands).
Proof.
  induction cands as [|r cands IH]; intros Hall; simpl; [done |].
  destruct (Hall r) as [c ->]; [by left |]. simpl.
  destruct (search_pairs rc r (pairwise c)); [done |].
  apply IH. intros r' Hr'. apply Hall. by right.
Qed.

(** What stands behind a point returned by the two loops. *)
Lemma find_gap_Some sensors size px row :
  find_gap sensors size = Some (Some (px, row)) →
  ∃ c left_ right_ (i : nat) above below,
    get_sensors_coverage_at_row sensors row = Some c
    ∧ c !! i = Some left_ ∧ c !! S i = Some right_
    ∧ right_.1 - left_.2 = 2 ∧ px = left_.2 + 1
    ∧ 0 <= row - 1 ∧ row + 1 <= size
    ∧ get_sensors_coverage_at_row sensors (row - 1) = Some above
    ∧ is_covered above px = true
    ∧ get_sensors_coverage_at_row sensors (row + 1) = Some below
    ∧ is_covered below px = true.
Proof.
  unfold find_gap.
  destruct (scan_rows _ _ _) as [st|] eqn:Hscan; [|done]. simpl.
  intros (_ & c & Hc & Hp)%search_rows_Some.
  apply search_pairs_Some in Hp as (_ & Ha & Hb & left_ & right_ & Hin & Hgap).
  apply covered_in_true in Ha as (above & Ha & Hca).
  apply covered_in_true in Hb as (below & Hb & Hcb).
  apply elem_of_pairwise in Hin as (i & Hi & HSi).
  apply gap_x_Some in Hgap as [Hgap ->].
  pose proof (scan_rows_lookup _ _ _ _ _ _ Hscan Hc) as [?|[_ Hrow]]; [done |].
  pose proof (scan_rows_lookup _ _ _ _ _ _ Hscan Ha) as [?|[Hina Hrowa]]; [done |].
  pose proof (scan_rows_lookup _ _ _ _ _ _ Hscan Hb) as [?|[Hinb Hrowb]]; [done |].
  apply elem_of_seqZ in Hina, Hinb.
  exists c, left_, right_, i, above, below. split_and!; try done; lia.
Qed.

(** When every row of the search area is reached by a sensor, the two loops
    run without an exception. *)
Lemma find_gap_is_Some sensors size :
  (∀ row, 0 <= row <= size →
     is_Some (get_sensors_coverage_at_row sensors row)) →
  is_Some (find_gap sensors size).
Proof.
  intros Hall. unfold find_gap.
  destruct (scan_rows_is_Some sensors (seqZ 0 (size + 1)) (∅, [])) as [st Hst].
  { intros row Hrow%elem_of_seqZ. apply Hall. lia. }
  rewrite Hst. simpl. apply search_rows_is_Some.
  apply (scan_rows_candidates _ _ _ _ Hst). intros r Hr.
  by apply elem_of_nil in Hr.
Qed.

End Search.

(** C3 (as the code has it): a candidate [x = left.end + 1] from a gap of
    exactly 2 between neighbouring merged intervals of a row is returned only
    when the rows above and below both lie in the scanned rows
    [0 .. search_area_size] and both cover [x]; [x] itself is not compared
    with the bounds of the search area. *)
Theorem part2_candidate_confirmed (data : gmap Coord Coord)
    (search_area_size px row : Z) :
  find_gap (sensors_of data) search_area_size = Some (Some (px, row)) →
  part2 data search_area_size = Some (px * 4000000 + row)
  ∧ ∃ coverage left_ right_ (i : nat) above below,
      get_sensors_coverage_at_row (sensors_of data) row = Some coverage
      ∧ coverage !! i = Some left_ ∧ coverage !! S i = Some right_
      ∧ right_.1 - left_.2 = 2 ∧ px = left_.2 + 1
      ∧ 0 <= row - 1 ∧ row + 1 <= search_area_size
      ∧ get_sensors_coverage_at_row (sensors_of data) (row - 1) = Some above
      ∧ is_covered above px = true
      ∧ get_sensors_coverage_at_row (sensors_of data) (row + 1) = Some below
      ∧ is_covered below px = true.
Proof.
  intros Hfound. split.
  - unfold part2. by rewrite Hfound.
  - by apply find_gap_Some.
Qed.

Lemma part2_candidate_confirmed_witness :
  part2 two_sensors 2 = Some (5 * 4000000 + 1)
  ∧ ∃ coverage left_ right_ (i : nat) above below,
      get_sensors_coverage_at_row (sensors_of two_sensors) 1 = Some coverage
      ∧ coverage !! i = Some left_ ∧ coverage !! S i = Some right_
      ∧ right_.1 - left_.2 = 2 ∧ 5 = left_.2 + 1
      ∧ 0 <= 1 - 1 ∧ 1 + 1 <= 2
      ∧ get_sensors_coverage_at_row (sensors_of two_sensors) (1 - 1) = Some above
      ∧ is_covered above 5 = true
      ∧ get_sensors_coverage_at_row (sensors_of two_sensors) (1 + 1) = Some below
      ∧ is_covered below 5 = true.
Proof.
  apply (part2_candidate_confirmed two_sensors 2 5 1).
  vm_compute. reflexivity.
Defined.

(** With a sensor of radius 1 at (4,0) and one at (6,2), and a search area
    of size 2, [part2] returns the point x = 5 of row 1: x is outside
    [[0, 2]], and it is covered, not uncovered, on row 0 and on row 2. *)
Lemma part2_candidate_unbounded :
  find_gap (sensors_of two_sensors) 2 = Some (Some (5, 1))
  ∧ part2 two_sensors 2 = Some 20000001
  ∧ ¬ (0 <= 5 <= 2)
  ∧ get_sensors_coverage_at_row (sensors_of two_sensors) 1 = Some [(4, 4); (6, 6)]
  ∧ get_sensors_coverage_at_row (sensors_of two_sensors) 0 = Some [(3, 5)]
  ∧ is_covered [(3, 5)] 5 = true
  ∧ get_sensors_coverage_at_row (sensors_of two_sensors) 2 = Some [(5, 7)]
  ∧ is_covered [(5, 7)] 5 = true.
Proof.
  split_and!; try (vm_compute; reflexivity). lia.
Qed.

(** C9: a value returned from inside the search loops of [part2] stands for a
    row strictly between 0 and [search_area_size]: the rows above and below
    must both have a recorded coverage, and none is recorded for the rows
    -1 and [search_area_size + 1]. *)
Theorem part2_row_strictly_inside (data : gmap Coord Coord)
    (search_area_size v : Z) :
  part2 data search_area_size = Some v →
  (find_gap (sensors_of data) search_area_size = Some None ∧ v = -1)
  ∨ ∃ px row,
      find_gap (sensors_of data) search_area_size = Some (Some (px, row))
      ∧ v = px * 4000000 + row
      ∧ 0 < row < search_area_size.
Proof.
  unfold part2.
  destruct (find_gap (sensors_of data) search_area_size)
    as [[[px row]|]|] eqn:Hfound; simpl; [| |done]; intros [= <-].
  - right. exists px, row. split_and!; try done;
      apply find_gap_Some in Hfound
        as (_ & _ & _ & _ & _ & _ & _ & _ & _ & _ & _ & ? & ? & _); lia.
  - by left.
Qed.

Lemma part2_row_strictly_inside_witness :
  (find_gap (sensors_of two_sensors) 2 = Some None ∧ 20000001 = -1)
  ∨ ∃ px row,
      find_gap (sensors_of two_sensors) 2 = Some (Some (px, row))
      ∧ 20000001 = px * 4000000 + row
      ∧ 0 < row < 2.
Proof.
  apply (part2_row_strictly_inside two_sensors 2 20000001).
  vm_compute. reflexivity.
Defined.

(** C4: [part2] does not return its sentinel when a row of the search area
    is reached by no sensor: the coverage of that row raises, and so does
    [part2]. *)
Theorem part2_raises_on_unreached_row (data : gmap Coord Coord)
    (search_area_size row : Z) :
  0 <= row <= search_area_size →
  get_sensors_coverage_at_row (sensors_of data) row = None →
  part2 data search_area_size = None.
Proof.
  intros Hrow Hnone. unfold part2, find_gap.
  rewrite (scan_rows_None _ _ row); [done | | done].
  apply elem_of_seqZ. lia.
Qed.

Lemma part2_raises_on_unreached_row_witness :
  part2 one_sensor 2 = None.
Proof.
  apply (part2_raises_on_unreached_row one_sensor 2 2).
  - lia.
  - vm_compute. reflexivity.
Defined.

(** When every row of the search area is reached by a sensor, [part2] returns
    without an exception: a point found by the loops, or else the
    sentinel. *)
Lemma part2_total (data : gmap Coord Coord) (search_area_size : Z) :
  (∀ row, 0 <= row <= search_area_size →
     is_Some (get_sensors_coverage_at_row (sensors_of data) row)) →
  is_Some (part2 data search_area_size).
Proof.
  intros Hall. unfold part2.
  destruct (find_gap_is_Some _ _ Hall) as [found ->]. by eexists.
Qed.

(** * Parsing *)

Section Parse.

Local Open Scope string_scope.

Lemma span_digits_all_digits s d rest :
  span_digits s = (d, rest) → all_digits d.
Proof.
  revert d rest. induction s as [|c s IH]; intros d rest; simpl.
  { by intros [= <- <-]. }
  destruct (is_digit c) eqn:Hc; [| by intros [= <- <-]].
  destruct (span_digits s) as [d' rest']. intros [= <- <-]. simpl. eauto.
Qed.

Lemma match_digits_all_digits s d rest :
  match_digits s = Some (d, rest) → all_digits d.
Proof.
  unfold match_digits. destruct (span_digits s) as [d' rest'] eqn:Hs.
  destruct d'; [done |]. intros [= <- <-]. by eapply span_digits_all_digits.
Qed.

Lemma digit_value_nonneg c : is_digit c = true → 0 <= digit_value c.
Proof.
  unfold is_digit, digit_value. intros [H _]%andb_prop. apply N.leb_le in H. lia.
Qed.

Lemma int_from_nonneg d : ∀ acc, all_digits d → 0 <= acc → 0 <= int_from acc d.
Proof.
  induction d as [|c d IH]; intros acc; simpl; [done |].
  intros [Hc Hd] Hacc. apply IH; [done |].
  pose proof (digit_value_nonneg c Hc). lia.
Qed.

Lemma int_nonneg d n : all_digits d → int d = Some n → 0 <= n.
Proof.
  intros Hd. unfold int. case_match; [| done]. intros [= <-].
  by apply int_from_nonneg.
Qed.

Lemma input_regex_match_all_digits line g1 g2 g3 g4 :
  input_regex_match line = Some (g1, g2, g3, g4) →
  all_digits g1 ∧ all_digits g2 ∧ all_digits g3 ∧ all_digits g4.
Proof.
  unfold input_regex_match. intros H.
  apply bind_Some in H as (s1 & _ & H).
  apply bind_Some in H as ([d1 s2] & Hd1%match_digits_all_digits & H).
  apply bind_Some in H as (s3 & _ & H).
  apply bind_Some in H as ([d2 s4] & Hd2%match_digits_all_digits & H).
  apply bind_Some in H as (s5 & _ & H).
  apply bind_Some in H as ([d3 s6] & Hd3%match_digits_all_digits & H).
  apply bind_Some in H as (s7 & _ & H).
  apply bind_Some in H as ([d4 s8] & Hd4%match_digits_all_digits & H).
  destruct (match_end s8); [|done]. by injection H as <- <- <- <-.
Qed.

Lemma parse_line_nonneg data line data' :
  parse_line data line = Some data' →
  map_Forall (λ sensor beacon, nonneg sensor ∧ nonneg beacon) data →
  map_Forall (λ sensor beacon, nonneg sensor ∧ nonneg beacon) data'.
Proof.
  unfold parse_line. intros Hline Hdata.
  destruct (input_regex_match line) as [[[[g1 g2] g3] g4]|] eqn:Hm;
    [| by injection Hline as <-].
  apply input_regex_match_all_digits in Hm as (H1 & H2 & H3 & H4).
  apply bind_Some in Hline as (sx & Hsx%int_nonneg & Hline); [| done].
  apply bind_Some in Hline as (sy & Hsy%int_nonneg & Hline); [| done].
  apply bind_Some in Hline as (bx & Hbx%int_nonneg & Hline); [| done].
  apply bind_Some in Hline as (by_ & Hby%int_nonneg & Hline); [| done].
  injection Hline as <-. apply map_Forall_insert_2; [| done].
  by unfold nonneg.
Qed.

Lemma parse_lines_nonneg lines : ∀ data data',
  for_each parse_line data lines = Some data' →
  map_Forall (λ sensor beacon, nonneg sensor ∧ nonneg beacon) data →
  map_Forall (λ sensor beacon, nonneg sensor ∧ nonneg beacon) data'.
Proof.
  induction lines as [|line lines IH]; intros data data'; simpl.
  { by intros [= <-]. }
  intros (data1 & Hline & Hrest)%bind_Some Hdata.
  eapply IH; [done |]. by eapply parse_line_nonneg.
Qed.

(** *** Lines in the documented format *)

Lemma bind_Some_l {A B} (f : A → option B) (a : A) : Some a ≫= f = f a.
Proof. done. Qed.

Lemma match_literal_app lit s : match_literal lit (lit ++ s) = Some s.
Proof.
  induction lit as [|c lit IH]; simpl; [done |]. by rewrite Ascii.eqb_refl.
Qed.

Lemma span_digits_app d rest :
  all_digits d → no_digit_head rest → span_digits (d ++ rest) = (d, rest).
Proof.
  intros Hd Hrest. induction d as [|c d IH]; simpl.
  - destruct rest as [|c rest]; simpl in *; [done |]. by rewrite Hrest.
  - destruct Hd as [-> Hd]. by rewrite IH.
Qed.

Lemma match_digits_app d rest :
  all_digits d → d ≠ "" → no_digit_head rest →
  match_digits (d ++ rest) = Some (d, rest).
Proof.
  intros Hd Hne Hrest. unfold match_digits. rewrite span_digits_app by done.
  by destruct d.
Qed.

Lemma match_digits_all d :
  all_digits d → d ≠ "" → match_digits d = Some (d, "").
Proof.
  intros Hd Hne.
  assert (d ++ "" = d) as Hnil.
  { clear. induction d as [|c d IH]; [done |].
    change (String c (d ++ "") = String c d). by rewrite IH. }
  rewrite <-Hnil at 1. by apply match_digits_app.
Qed.

Lemma match_digits_minus s rest : match_digits (String "-" s ++ rest) = None.
Proof. done. Qed.

Lemma string_of_uint_all_digits d :
  all_digits (NilZero.string_of_uint d) ∧ NilZero.string_of_uint d ≠ "".
Proof.
  assert (all_digits (NilEmpty.string_of_uint d)) as Hd.
  { induction d; simpl; auto. }
  destruct d; simpl in *; try done; split; done.
Qed.

Lemma show_int_nonneg n :
  0 <= n → all_digits (show_int n) ∧ show_int n ≠ "".
Proof.
  intros Hn. unfold show_int. destruct n as [|p|p]; [| | lia]; simpl.
  - done.
  - apply string_of_uint_all_digits.
Qed.

Lemma show_int_neg n : n < 0 → ∃ s, show_int n = String "-" s.
Proof.
  intros Hn. unfold show_int. destruct n as [|p|p]; [lia | lia |].
  simpl. eauto.
Qed.

Ltac regex_literal := rewrite match_literal_app, bind_Some_l.
Ltac regex_group H :=
  first [ rewrite match_digits_app by (done || apply H)
        | rewrite match_digits_all by apply H ];
  rewrite bind_Some_l; cbv beta iota.
Ltac regex_minus H :=
  destruct H as [? ->]; by rewrite match_digits_minus.

(** A line in the documented format with four non-negative integers is
    matched, with the four numerals as groups. *)
Lemma input_regex_match_format sx sy bx by_ :
  0 <= sx → 0 <= sy → 0 <= bx → 0 <= by_ →
  input_regex_match (format_line sx sy bx by_)
  = Some (show_int sx, show_int sy, show_int bx, show_int by_).
Proof.
  intros H1%show_int_nonneg H2%show_int_nonneg H3%show_int_nonneg H4%show_int_nonneg.
  unfold input_regex_match, format_line.
  regex_literal. regex_group H1. regex_literal. regex_group H2.
  regex_literal. regex_group H3. regex_literal. regex_group H4.
  done.
Qed.

(** A negative integer anywhere in the line makes the match fail. *)
Lemma input_regex_match_negative sx sy bx by_ :
  sx < 0 ∨ sy < 0 ∨ bx < 0 ∨ by_ < 0 →
  input_regex_match (format_line sx sy bx by_) = None.
Proof.
  intros Hneg. unfold input_regex_match, format_line.
  regex_literal.
  destruct (Z.lt_ge_cases sx 0) as [H1|H1];
    [apply show_int_neg in H1; regex_minus H1 |].
  pose proof (show_int_nonneg _ H1) as H1'. regex_group H1'. regex_literal.
  destruct (Z.lt_ge_cases sy 0) as [H2|H2];
    [apply show_int_neg in H2; regex_minus H2 |].
  pose proof (show_int_nonneg _ H2) as H2'. regex_group H2'. regex_literal.
  destruct (Z.lt_ge_cases bx 0) as [H3|H3];
    [apply show_int_neg in H3; regex_minus H3 |].
  pose proof (show_int_nonneg _ H3) as H3'. regex_group H3'. regex_literal.
  destruct (Z.lt_ge_cases by_ 0) as [H4|H4]; [| lia].
  apply show_int_neg in H4 as [? ->]. done.
Qed.

End Parse.

(** C10: every coordinate of the mapping returned by [parse] is
    non-negative, and a line in the documented format with a negative x or y
    does not match [input_regex] and leaves the mapping as it was. *)
Theorem parse_nonnegative (puzzle_input : string) (data : gmap Coord Coord)
    (sensor beacon : Coord) (sx sy bx by_ : Z) :
  (parse puzzle_input = Some data → data !! sensor = Some beacon →
   0 <= x sensor ∧ 0 <= y sensor ∧ 0 <= x beacon ∧ 0 <= y beacon)
  ∧ (sx < 0 ∨ sy < 0 ∨ bx < 0 ∨ by_ < 0 →
     input_regex_match (format_line sx sy bx by_) = None
     ∧ ∀ data', parse_line data' (format_line sx sy bx by_) = Some data').
Proof.
  split.
  - intros Hparse Hlookup. unfold parse in Hparse.
    pose proof (parse_lines_nonneg _ _ _ Hparse (map_Forall_empty _)) as Hall.
    destruct (Hall sensor beacon Hlookup) as [[??] [??]]. done.
  - intros Hneg%input_regex_match_negative. split; [done |].
    intros data'. unfold parse_line. by rewrite Hneg.
Qed.

Lemma parse_nonnegative_witness :
  (0 <= 9 ∧ 0 <= 16 ∧ 0 <= 10 ∧ 0 <= 16)
  ∧ input_regex_match (format_line 2 18 (-2) 15) = None
  ∧ ∀ data', parse_line data' (format_line 2 18 (-2) 15) = Some data'.
Proof.
  destruct (parse_nonnegative
              (format_line 2 18 (-2) 15 ++ String "010" (format_line 9 16 10 16))%string
              {[ mkCoord 9 16 := mkCoord 10 16 ]}
              (mkCoord 9 16) (mkCoord 10 16) 2 18 (-2) 15) as [H1 H2].
  split.
  - apply H1; vm_compute; reflexivity.
  - apply H2. lia.
Defined.

(** * The puzzle's example *)

(** On the fourteen sensors of the example, row 10 has 26 covered cells
    without a beacon and the uncovered point of the 0..20 square is
    (14, 11). *)
Example example_answers :
  part1 example_data 10 = Some 26 ∧ part2 example_data 20 = Some 56000011.
Proof. vm_compute. split; reflexivity. Qed.

(** One sensor at the origin with its beacon at (2,0): row 0 is covered from
    -2 to 2, five cells, one of them the beacon. *)
Example single_sensor_row :
  get_sensors_coverage_at_row (sensors_of {[ mkCoord 0 0 := mkCoord 2 0 ]}) 0
  = Some [(-2, 2)]
  ∧ interval_cells [(-2, 2)] = 5
  ∧ part1 {[ mkCoord 0 0 := mkCoord 2 0 ]} 0 = Some 4.
Proof. vm_compute. split_and!; reflexivity. Qed.

Example blend_example :
  blend_coverage_ranges example_ranges = Some [(2, 4); (6, 10); (12, 12)].
Proof. reflexivity. Qed.

(** Ranges that are no intervals are outside the contract of the blend: a
    range with [start > end + 1] is appended to itself. *)
Example blend_of_inverted_range :
  blend_coverage_ranges [(5, 1)] = Some [(5, 1); (5, 1)].
Proof. reflexivity. Qed.

Example parse_example :
  parse (format_line 2 18 (-2) 15 ++ String "010" (format_line 9 16 10 16))%string
  = Some {[ mkCoord 9 16 := mkCoord 10 16 ]}.
Proof. vm_compute. reflexivity. Qed.

Example splitlines_example :
  splitlines ("ab" ++ String "013" (String "010" (String "010" "cd"))
              ++ String "010" "")%string
  = ["ab"; ""; "cd"]%string.
Proof. vm_compute. reflexivity. Qed.

(** * Further properties of the blend *)

Section BlendMore.

Implicit Types (r k : range) (l rest ranges : list range) (p : Z).

Lemma blend_from_length rest : ∀ k,
  (length (blend_from k rest) ≤ S (length rest))%nat.
Proof.
  induction rest as [|[s e] rest IH]; intros k; simpl; [done |].
  pose proof (IH k). pose proof (IH (k.1, e)). pose proof (IH (s, e)).
  repeat case_match; simpl; lia.
Qed.

Lemma blend_coverage_ranges_length ranges out :
  Forall valid ranges → blend_coverage_ranges ranges = Some out →
  (length out ≤ length ranges)%nat.
Proof.
  intros Hv. rewrite blend_coverage_ranges_from.
  pose proof (sorted_Permutation ranges) as Hperm.
  destruct (sorted ranges) as [|[s e] rest]; [done |]. intros [= <-].
  rewrite <-Hperm in Hv. apply Forall_cons in Hv as [Hr0 _].
  unfold valid in Hr0; simpl in Hr0.
  rewrite <-(Permutation_length Hperm). cbn [blend_from fst snd].
  destruct (Z.leb_spec s (e + 1)); [| lia].
  destruct (Z.geb_spec e e); [| lia]. cbn [andb length].
  apply blend_from_length.
Qed.

Lemma elem_of_points l p : p ∈ points l ↔ covers l p.
Proof.
  unfold points, covers. rewrite list_elem_of_bind, Exists_exists.
  split; intros (r & H1 & H2); exists r.
  - apply elem_of_seqZ in H1. split; [done | lia].
  - split; [| done]. apply elem_of_seqZ. lia.
Qed.

Lemma points_canonical l :
  Forall valid l → StronglySorted gap2 l →
  NoDup (points l) ∧ interval_cells l = Z.of_nat (length (points l)).
Proof.
  intros Hv Hs. induction Hs as [|[s e] l Hs IH Hall].
  { split; [constructor | done]. }
  apply Forall_cons in Hv as [Hse Hv]. unfold valid in Hse; simpl in Hse.
  destruct (IH Hv) as [IH1 IH2].
  change (points ((s, e) :: l)) with (seqZ s (e - s + 1) ++ points l).
  split.
  - apply NoDup_app. split_and!; [apply NoDup_seqZ | | done].
    intros p Hp%elem_of_seqZ Hin%elem_of_points.
    pose proof (covers_after _ _ _ Hall Hin) as Hafter. simpl in Hafter. lia.
  - simpl. rewrite IH2, length_app, length_seqZ. lia.
Qed.

End BlendMore.

(** X1: [blend_coverage_ranges] raises exactly on the empty list; on any
    other list it returns a non-empty list. *)
Theorem blend_coverage_ranges_raises_iff_empty (ranges : list range) :
  (blend_coverage_ranges ranges = None ↔ ranges = [])
  ∧ (ranges ≠ [] → ∃ o out, blend_coverage_ranges ranges = Some (o :: out)).
Proof.
  split; [apply blend_coverage_ranges_None |].
  intros Hne. rewrite blend_coverage_ranges_from.
  pose proof (sorted_Permutation ranges) as Hperm.
  destruct (sorted ranges) as [|r0 rest].
  { symmetry in Hperm. by apply Permutation_nil_r in Hperm. }
  destruct (blend_from_cons r0 (r0 :: rest)) as (o & out & ->). eauto.
Qed.

Lemma blend_coverage_ranges_raises_iff_empty_witness :
  ∃ o out, blend_coverage_ranges example_ranges = Some (o :: out).
Proof.
  apply (blend_coverage_ranges_raises_iff_empty example_ranges). discriminate.
Defined.

(** X2: the result of the blend does not depend on the order of the
    intervals handed over. *)
Theorem blend_coverage_ranges_order_irrelevant (l l' : list range) :
  l ≡ₚ l' → Forall valid l →
  blend_coverage_ranges l = blend_coverage_ranges l'.
Proof. apply blend_coverage_ranges_Permutation. Qed.

Lemma blend_coverage_ranges_order_irrelevant_witness :
  blend_coverage_ranges example_ranges
  = blend_coverage_ranges (reverse example_ranges).
Proof.
  apply (blend_coverage_ranges_order_irrelevant example_ranges (reverse example_ranges)).
  - symmetry. apply reverse_Permutation.
  - repeat constructor; unfold valid; simpl; lia.
Defined.

(** X3: the blend returns the fewest intervals possible: no list of
    intervals with the same integer points is shorter than its result, and
    the only list of intervals with these points and a gap between any two
    of them is the result itself. *)
Theorem blend_coverage_ranges_minimal (ranges l' : list range) :
  ranges ≠ [] → Forall valid ranges → Forall valid l' →
  (∀ p, covers l' p ↔ covers ranges p) →
  ∃ out, blend_coverage_ranges ranges = Some out
    ∧ (length out ≤ length l')%nat
    ∧ (StronglySorted gap2 l' → l' = out).
Proof.
  intros Hne Hv Hv' Hc.
  destruct (blend_coverage_ranges_canonical ranges Hne Hv)
    as (o & out & Hout & Hvo & Hs & Hco).
  exists (o :: out). split; [done |].
  assert (l' ≠ []) as Hne'.
  { intros ->. apply Forall_cons in Hvo as [Ho _]. unfold valid in Ho.
    specialize (Hc o.1). rewrite <-Hco, covers_nil, covers_cons in Hc. lia. }
  split.
  - destruct (blend_coverage_ranges_canonical l' Hne' Hv')
      as (o' & out' & Hout' & Hvo' & Hs' & Hco').
    assert (o' :: out' = o :: out) as Heq.
    { apply canonical_unique; try done. intros p. by rewrite Hco', Hco, Hc. }
    rewrite <-Heq. by eapply blend_coverage_ranges_length.
  - intros Hs'. apply canonical_unique; try done.
    intros p. by rewrite Hco, Hc.
Qed.

Lemma blend_coverage_ranges_minimal_witness :
  ∃ out, blend_coverage_ranges example_ranges = Some out
    ∧ (length out ≤ length [(2, 4); (6, 10); (12, 12)])%nat
    ∧ (StronglySorted gap2 [(2, 4); (6, 10); (12, 12)]
       → [(2, 4); (6, 10); (12, 12)] = out).
Proof.
  apply (blend_coverage_ranges_minimal example_ranges [(2, 4); (6, 10); (12, 12)]).
  - discriminate.
  - repeat constructor; unfold valid; simpl; lia.
  - repeat constructor; unfold valid; simpl; lia.
  - intros p. unfold example_ranges. rewrite !covers_cons, !covers_nil. simpl. lia.
Defined.

(** X4: the sum of [end - start + 1] over the blended intervals is the number
    of distinct integer points of the input intervals: no point is counted
    twice. *)
Theorem blend_coverage_ranges_cells (ranges : list range) :
  ranges ≠ [] → Forall valid ranges →
  ∃ out pts, blend_coverage_ranges ranges = Some out
    ∧ NoDup pts
    ∧ (∀ p, p ∈ pts ↔ covers ranges p)
    ∧ interval_cells out = Z.of_nat (length pts).
Proof.
  intros Hne Hv.
  destruct (blend_coverage_ranges_canonical ranges Hne Hv)
    as (o & out & Hout & Hvo & Hs & Hco).
  destruct (points_canonical (o :: out) Hvo Hs) as [Hnd Hlen].
  exists (o :: out), (points (o :: out)). split_and!; try done.
  intros p. by rewrite elem_of_points.
Qed.

Lemma blend_coverage_ranges_cells_witness :
  ∃ out pts, blend_coverage_ranges example_ranges = Some out
    ∧ NoDup pts
    ∧ (∀ p, p ∈ pts ↔ covers example_ranges p)
    ∧ interval_cells out = Z.of_nat (length pts).
Proof.
  apply (blend_coverage_ranges_cells example_ranges).
  - discriminate.
  - repeat constructor; unfold valid; simpl; lia.
Defined.

(** * Coverage and the sensors *)

Section Coverage.

Implicit Types (sensors : gset Sensor) (data : gmap Coord Coord)
  (c : list range) (p px row : Z).

Lemma compute_row_interval_reaches (s : Sensor) row px :
  (∃ i, compute_row_interval s row = Some i ∧ i.1 <= px <= i.2)
  ↔ reaches s (mkCoord px row).
Proof.
  unfold compute_row_interval, reaches, distance. simpl.
  destruct (Z.ltb_spec (scan_range s - Z.abs (row - y (coord s))) 0); split.
  - by intros (i & ? & _).
  - intros ?. lia.
  - intros (i & [= <-] & Hi). simpl in Hi. lia.
  - intros ?. eexists. split; [done |]. simpl. lia.
Qed.

Lemma coverage_canonical sensors row c :
  get_sensors_coverage_at_row sensors row = Some c →
  c ≠ [] ∧ Forall valid c ∧ StronglySorted gap2 c.
Proof.
  unfold get_sensors_coverage_at_row. intros Hc.
  set (l := omap _ _) in Hc.
  assert (l ≠ []) as Hne.
  { intros Hl. apply blend_coverage_ranges_None in Hl. congruence. }
  destruct (blend_coverage_ranges_canonical l Hne (coverage_ranges_valid _ _))
    as (o & out & Hout & Hvo & Hs & _).
  rewrite Hout in Hc. injection Hc as <-. done.
Qed.

Lemma coverage_covers sensors row c px :
  get_sensors_coverage_at_row sensors row = Some c →
  covers c px ↔ ∃ s, s ∈ sensors ∧ reaches s (mkCoord px row).
Proof.
  unfold get_sensors_coverage_at_row. intros Hc.
  set (l := omap _ _) in Hc.
  assert (l ≠ []) as Hne.
  { intros Hl. apply blend_coverage_ranges_None in Hl. congruence. }
  destruct (blend_coverage_ranges_canonical l Hne (coverage_ranges_valid _ _))
    as (o & out & Hout & _ & _ & Hco).
  rewrite Hout in Hc. injection Hc as <-. rewrite Hco.
  unfold covers, l. rewrite Exists_exists.
  setoid_rewrite list_elem_of_omap. setoid_rewrite elem_of_elements.
  split.
  - intros (i & (s & Hs & Hi) & Hp). exists s. split; [done |].
    apply compute_row_interval_reaches. eauto.
  - intros (s & Hs & (i & Hi & Hp)%compute_row_interval_reaches). eauto.
Qed.

Lemma elem_of_sensors_of data (s : Sensor) :
  s ∈ sensors_of data
  ↔ ∃ sensor beacon, data !! sensor = Some beacon
                     ∧ s = mkSensor sensor (distance sensor beacon).
Proof.
  unfold sensors_of.
  enough (∀ (items : list (Coord * Coord)) (acc : gset Sensor),
    s ∈ foldl (λ sensors '(sensor, beacon),
                 let scan_range := distance sensor beacon in
                 sensors ∪ {[ mkSensor sensor scan_range ]}) acc items
    ↔ s ∈ acc ∨ ∃ sensor beacon, (sensor, beacon) ∈ items
                  ∧ s = mkSensor sensor (distance sensor beacon)) as H.
  { rewrite H. setoid_rewrite elem_of_map_to_list.
    split; [intros [[]%elem_of_empty|?]; done | auto]. }
  induction items as [|[sensor beacon] items IH]; intros acc; simpl.
  { split; [auto |]. intros [?|(? & ? & Hin & _)]; [done |].
    by apply elem_of_nil in Hin. }
  rewrite IH, elem_of_union, elem_of_singleton. split.
  - intros [[Hs | ->] | (s' & b' & Hin & ->)]; [by left | right | right].
    + exists sensor, beacon. split; [by left | done].
    + exists s', b'. split; [by right | done].
  - intros [Hs | (s' & b' & [[= -> ->] | Hin]%elem_of_cons & ->)]; [auto | auto |].
    right. eauto.
Qed.

(** A point of the row is covered exactly when some sensor of the mapping
    is at least as near to it as to its beacon. *)
Lemma coverage_of_data data row c px :
  get_sensors_coverage_at_row (sensors_of data) row = Some c →
  covers c px
  ↔ ∃ sensor beacon, data !! sensor = Some beacon
      ∧ distance sensor (mkCoord px row) <= distance sensor beacon.
Proof.
  intros Hc. rewrite (coverage_covers _ _ _ _ Hc).
  setoid_rewrite elem_of_sensors_of. unfold reaches. split.
  - intros (s & (sensor & beacon & Hd & ->) & Hr). simpl in Hr. eauto.
  - intros (sensor & beacon & Hd & Hr).
    exists (mkSensor sensor (distance sensor beacon)). eauto.
Qed.

(** Around a one-cell gap of a blended list. *)
Lemma gap_uncovered c (i : nat) (left_ right_ : range) :
  Forall valid c → StronglySorted gap2 c →
  c !! i = Some left_ → c !! S i = Some right_ →
  right_.1 - left_.2 = 2 →
  ¬ covers c (left_.2 + 1) ∧ covers c left_.2 ∧ covers c right_.1.
Proof.
  intros Hv Hs Hi HSi Hgap. rewrite Forall_forall in Hv.
  pose proof (Hv _ (list_elem_of_lookup_2 _ _ _ Hi)) as Hl.
  pose proof (Hv _ (list_elem_of_lookup_2 _ _ _ HSi)) as Hr.
  unfold valid in Hl, Hr. unfold covers. rewrite !Exists_exists. split_and!.
  - intros (r & (j & Hj)%list_elem_of_lookup & Hp).
    pose proof (Hv _ (list_elem_of_lookup_2 _ _ _ Hj)) as Hrv. unfold valid in Hrv.
    destruct (decide (j < i)%nat) as [Hlt|Hge].
    { pose proof (StronglySorted_lookup _ _ _ _ _ _ Hs Hlt Hj Hi) as H.
      unfold gap2 in H. lia. }
    destruct (decide (j = i)) as [->|Hne]; [simplify_eq; lia |].
    destruct (decide (j = S i)) as [->|Hne']; [simplify_eq; lia |].
    assert (S i < j)%nat as Hgt by lia.
    pose proof (StronglySorted_lookup _ _ _ _ _ _ Hs Hgt HSi Hj) as H.
    unfold gap2 in H. lia.
  - exists left_. split; [by eapply list_elem_of_lookup_2 | lia].
  - exists right_. split; [by eapply list_elem_of_lookup_2 | lia].
Qed.

(** A cell that is not covered while both its neighbours on the row are
    lies between two neighbouring intervals of the blended list. *)
Lemma gap_pair c p :
  Forall valid c → StronglySorted gap2 c →
  covers c (p - 1) → covers c (p + 1) → ¬ covers c p →
  ∃ (i : nat) left_ right_,
    c !! i = Some left_ ∧ c !! S i = Some right_
    ∧ left_.2 = p - 1 ∧ right_.1 = p + 1.
Proof.
  intros Hv Hs. induction Hs as [|a c Hs IH Hall]; intros H1 H2 H3.
  { by apply covers_nil in H1. }
  apply Forall_cons in Hv as [Ha Hv]. unfold valid in Ha.
  rewrite covers_cons in H1, H2, H3.
  pose proof (covers_after a c (p - 1) Hall) as A1.
  pose proof (covers_after a c (p + 1) Hall) as A2.
  destruct H1 as [H1|H1].
  - destruct H2 as [H2|H2]; [lia |].
    specialize (A2 H2).
    destruct Hs as [|b c' Hs' Hall']; [by apply covers_nil in H2 |].
    apply Forall_cons in Hall as [Hab _]. apply Forall_cons in Hv as [Hb _].
    unfold gap2 in Hab. unfold valid in Hb.
    rewrite covers_cons in H2. destruct H2 as [H2|H2].
    + exists 0%nat, a, b. simpl. split_and!; try done; lia.
    + pose proof (covers_after b c' (p + 1) Hall' H2). lia.
  - specialize (A1 H1). destruct H2 as [H2|H2]; [lia |].
    destruct (IH Hv H1 H2) as (i & l & r & Hi & HSi & ? & ?); [tauto |].
    exists (S i), l, r. done.
Qed.

End Coverage.

(** X5: the coverage of a row holds exactly the cells of the row that lie
    within the scan range of some sensor of the set. *)
Theorem get_sensors_coverage_at_row_reaches (sensors : gset Sensor)
    (row : Z) (coverage : list range) (px : Z) :
  get_sensors_coverage_at_row sensors row = Some coverage →
  is_covered coverage px = true
  ↔ ∃ s, s ∈ sensors ∧ reaches s (mkCoord px row).
Proof.
  intros Hc. rewrite covers_is_covered. by apply coverage_covers.
Qed.

Lemma get_sensors_coverage_at_row_reaches_witness :
  is_covered [(2, 14)] 5 = true
  ↔ ∃ s, s ∈ ({[ mkSensor (mkCoord 8 7) 9 ]} : gset Sensor)
         ∧ reaches s (mkCoord 5 10).
Proof.
  apply (get_sensors_coverage_at_row_reaches
           {[ mkSensor (mkCoord 8 7) 9 ]} 10 [(2, 14)] 5).
  vm_compute. reflexivity.
Defined.

(** X6: the coverage of a row is the same in whatever order the set of
    sensors is enumerated by the comprehension. *)
Theorem get_sensors_coverage_at_row_order_irrelevant (sensors : gset Sensor)
    (row : Z) (enum : list Sensor) :
  enum ≡ₚ elements sensors →
  blend_coverage_ranges (omap (λ sensor, get_coverage_at_row sensor row) enum)
  = get_sensors_coverage_at_row sensors row.
Proof. apply get_sensors_coverage_at_row_enum. Qed.

Lemma get_sensors_coverage_at_row_order_irrelevant_witness :
  blend_coverage_ranges
    (omap (λ sensor, get_coverage_at_row sensor 10)
          (reverse (elements (sensors_of example_data))))
  = get_sensors_coverage_at_row (sensors_of example_data) 10.
Proof.
  apply (get_sensors_coverage_at_row_order_irrelevant
           (sensors_of example_data) 10
           (reverse (elements (sensors_of example_data)))).
  apply reverse_Permutation.
Defined.

(** X7: [part1] counts exactly the cells of the row that some sensor of the
    mapping covers (it is at least as near to the cell as to its beacon) and
    that hold no beacon of the mapping. *)
Theorem part1_counts_covered_cells (data : gmap Coord Coord) (row n : Z) :
  part1 data row = Some n →
  ∃ cells : list Z,
    NoDup cells
    ∧ (∀ px, px ∈ cells
         ↔ (∃ sensor beacon, data !! sensor = Some beacon
              ∧ distance sensor (mkCoord px row) <= distance sensor beacon)
           ∧ ¬ ∃ sensor, data !! sensor = Some (mkCoord px row))
    ∧ n = Z.of_nat (length cells).
Proof.
  unfold part1.
  destruct (get_sensors_coverage_at_row (sensors_of data) row) as [c|] eqn:Hc;
    [|done].
  simpl. set (B := list_to_set _ : gset Coord). intros [= <-].
  rewrite sum_ints_cells.
  destruct (coverage_canonical _ _ _ Hc) as (_ & Hv & Hs).
  destruct (points_canonical c Hv Hs) as [Hnd Hlen].
  assert (∀ b, b ∈ B ↔ y b = row ∧ ∃ sensor, data !! sensor = Some b) as HB.
  { intros b. unfold B.
    rewrite elem_of_list_to_set, list_elem_of_filter, list_elem_of_fmap.
    split; intros [Hy Hb]; (split; [done |]).
    - destruct Hb as ([s b'] & -> & Hin). exists s. by apply elem_of_map_to_list.
    - destruct Hb as (s & Hs'). exists (s, b). split; [done |].
      by apply elem_of_map_to_list. }
  assert (∀ px, px ∈ points c
            ↔ ∃ sensor beacon, data !! sensor = Some beacon
                ∧ distance sensor (mkCoord px row) <= distance sensor beacon)
    as Hpts.
  { intros px. rewrite elem_of_points. by apply coverage_of_data. }
  exists (filter (λ px, mkCoord px row ∉ B) (points c)). split_and!.
  - by apply NoDup_filter.
  - intros px. rewrite list_elem_of_filter, Hpts. split.
    + intros [Hnot Hcov]. split; [done |]. intros [s Hd].
      apply Hnot, HB. simpl. eauto.
    + intros [Hcov Hnot]. split; [| exact Hcov].
      intros Hb. apply HB in Hb as [_ Hb]. by apply Hnot.
  - assert (filter (λ px, ¬ (mkCoord px row ∉ B)) (points c) ≡ₚ x <$> elements B)
      as Hin.
    { apply NoDup_Permutation.
      - by apply NoDup_filter.
      - apply NoDup_fmap_2_strong; [| apply NoDup_elements].
        intros b1 b2 [Hy1 _]%elem_of_elements%HB [Hy2 _]%elem_of_elements%HB Hx.
        destruct b1, b2; simpl in *; congruence.
      - intros px. rewrite list_elem_of_filter, list_elem_of_fmap.
        setoid_rewrite elem_of_elements. split.
        + intros [Hb%dec_stable _]. by exists (mkCoord px row).
        + intros (b & -> & Hb). pose proof (proj1 (HB b) Hb) as [Hy [s Hd]].
          assert (mkCoord (x b) row = b) as Heq by (destruct b; simpl in *; congruence).
          rewrite Heq. split; [auto |].
          apply Hpts. exists s, b. split; [done |]. rewrite Heq. lia. }
    pose proof (filter_app_complement (λ px, mkCoord px row ∉ B) (points c)) as Hsplit.
    apply Permutation_length in Hsplit. rewrite length_app in Hsplit.
    rewrite Hin, length_fmap in Hsplit.
    change (length (elements B)) with (size B) in Hsplit. lia.
Qed.

Lemma part1_counts_covered_cells_witness :
  ∃ cells : list Z,
    NoDup cells
    ∧ (∀ px, px ∈ cells
         ↔ (∃ sensor beacon, example_data !! sensor = Some beacon
              ∧ distance sensor (mkCoord px 10) <= distance sensor beacon)
           ∧ ¬ ∃ sensor, example_data !! sensor = Some (mkCoord px 10))
    ∧ 26 = Z.of_nat (length cells).
Proof.
  apply (part1_counts_covered_cells example_data 10 26).
  vm_compute. reflexivity.
Defined.

(** * Soundness and completeness of the search *)

Section SearchMore.

Implicit Types (sensors : gset Sensor) (rc : gmap Z (list range))
  (st : gmap Z (list range) * list Z) (rows : list Z) (c : list range).

Lemma scan_row_mono sensors st row st' r :
  scan_row sensors st row = Some st' →
  (is_Some (st.1 !! r) → is_Some (st'.1 !! r)) ∧ (r ∈ st.2 → r ∈ st'.2).
Proof.
  unfold scan_row.
  destruct (get_sensors_coverage_at_row sensors row) as [cov|]; [|done].
  simpl. intros [= <-]. destruct (truthy cov); [|done]. simpl. split.
  - intros Hr. rewrite lookup_insert. destruct (decide (row = r)); [by eexists | done].
  - intros Hr. case_bool_decide; [| done]. apply elem_of_app. by left.
Qed.

Lemma scan_rows_mono sensors rows : ∀ st st' r,
  scan_rows sensors rows st = Some st' →
  (is_Some (st.1 !! r) → is_Some (st'.1 !! r)) ∧ (r ∈ st.2 → r ∈ st'.2).
Proof.
  induction rows as [|row rows IH]; intros st st' r; simpl.
  { by intros [= <-]. }
  destruct (scan_row sensors st row) as [st1|] eqn:Hrow; [|done]. simpl.
  intros Hrows. destruct (scan_row_mono _ _ _ _ r Hrow) as [H1 H2].
  destruct (IH _ _ r Hrows) as [H3 H4]. auto.
Qed.

(** Every row the first loop goes through gets its coverage recorded, and
    is a candidate when the coverage has more than one interval. *)
Lemma scan_rows_stores sensors rows : ∀ st st' r,
  scan_rows sensors rows st = Some st' → r ∈ rows →
  ∃ c, get_sensors_coverage_at_row sensors r = Some c
       ∧ is_Some (st'.1 !! r)
       ∧ ((1 < length c)%nat → r ∈ st'.2).
Proof.
  induction rows as [|row rows IH]; intros st st' r Hscan Hin.
  { by apply elem_of_nil in Hin. }
  simpl in Hscan.
  destruct (scan_row sensors st row) as [st1|] eqn:Hrow; [|done].
  simpl in Hscan. apply elem_of_cons in Hin as [->|Hin]; [| by eapply IH].
  destruct (scan_rows_mono _ _ _ _ row Hscan) as [H1 H2].
  unfold scan_row in Hrow.
  destruct (get_sensors_coverage_at_row sensors row) as [cov|] eqn:Hcov; [|done].
  simpl in Hrow. injection Hrow as <-.
  destruct (coverage_canonical _ _ _ Hcov) as (Hne & _).
  destruct cov as [|r0 cov]; [done |]. cbn [truthy] in H1, H2. cbv iota in H1, H2.
  exists (r0 :: cov). split_and!; [done | |].
  - apply H1. simpl. rewrite lookup_insert_eq. by eexists.
  - intros Hlen. apply H2. simpl. rewrite bool_decide_eq_true_2 by done.
    apply elem_of_app. right. by apply list_elem_of_singleton.
Qed.

Lemma search_pairs_None rc row pairs left_ right_ px :
  search_pairs rc row pairs = None →
  (left_, right_) ∈ pairs → gap_x left_ right_ = Some px →
  covered_in rc (row - 1) px && covered_in rc (row + 1) px = false.
Proof.
  induction pairs as [|[l r] pairs IH]; intros Hs Hin Hgap.
  { by apply elem_of_nil in Hin. }
  simpl in Hs. apply elem_of_cons in Hin as [[= <- <-]|Hin].
  - rewrite Hgap in Hs.
    by destruct (covered_in rc (row - 1) px && covered_in rc (row + 1) px).
  - apply IH; [| done | done].
    destruct (gap_x l r) as [x0|]; [| done].
    by destruct (covered_in rc (row - 1) x0 && covered_in rc (row + 1) x0).
Qed.

Lemma search_rows_None rc cands row c :
  search_rows rc cands = Some None → row ∈ cands → rc !! row = Some c →
  search_pairs rc row (pairwise c) = None.
Proof.
  induction cands as [|r cands IH]; intros Hs Hin Hc.
  { by apply elem_of_nil in Hin. }
  simpl in Hs. destruct (rc !! r) as [c'|] eqn:Hc'; [|done]. simpl in Hs.
  destruct (search_pairs rc r (pairwise c')) eqn:Hp; [done |].
  apply elem_of_cons in Hin as [->|Hin]; [| by apply IH].
  by simplify_eq.
Qed.

Lemma covered_in_covers sensors rc r px c :
  rc !! r = Some c → covers c px → covered_in rc r px = true.
Proof.
  intros Hr Hc. apply covered_in_true. exists c. split; [done |].
  by apply covers_is_covered.
Qed.

End SearchMore.

(** X8: a point returned by the search of [part2] is covered by no sensor of
    the mapping, while the four cells beside, above and below it are
    covered. *)
Theorem part2_point_uncovered (data : gmap Coord Coord)
    (search_area_size px row : Z) :
  find_gap (sensors_of data) search_area_size = Some (Some (px, row)) →
  (∀ sensor beacon, data !! sensor = Some beacon →
     distance sensor beacon < distance sensor (mkCoord px row))
  ∧ ∀ cell, cell ∈ [mkCoord (px - 1) row; mkCoord (px + 1) row;
                    mkCoord px (row - 1); mkCoord px (row + 1)] →
      ∃ sensor beacon, data !! sensor = Some beacon
        ∧ distance sensor cell <= distance sensor beacon.
Proof.
  intros (c & left_ & right_ & i & above & below & Hc & Hi & HSi & Hgap & ->
          & _ & _ & Ha & Hca & Hb & Hcb)%find_gap_Some.
  destruct (coverage_canonical _ _ _ Hc) as (_ & Hv & Hs).
  destruct (gap_uncovered c i left_ right_ Hv Hs Hi HSi Hgap) as (Hno & Hl & Hr).
  rewrite (coverage_of_data _ _ _ _ Hc) in Hno.
  apply (coverage_of_data _ _ _ _ Hc) in Hl.
  apply (coverage_of_data _ _ _ _ Hc) in Hr.
  apply covers_is_covered, (coverage_of_data _ _ _ _ Ha) in Hca.
  apply covers_is_covered, (coverage_of_data _ _ _ _ Hb) in Hcb.
  split.
  - intros sensor beacon Hd.
    destruct (Z.lt_ge_cases (distance sensor beacon)
                (distance sensor (mkCoord (left_.2 + 1) row))) as [|Hle]; [done |].
    exfalso. apply Hno. eauto.
  - intros cell Hcell. repeat (apply elem_of_cons in Hcell as [->|Hcell]).
    + by replace (left_.2 + 1 - 1) with left_.2 by lia.
    + by replace (left_.2 + 1 + 1) with right_.1 by lia.
    + done.
    + done.
    + by apply elem_of_nil in Hcell.
Qed.

Lemma part2_point_uncovered_witness :
  (∀ sensor beacon, two_sensors !! sensor = Some beacon →
     distance sensor beacon < distance sensor (mkCoord 5 1))
  ∧ ∀ cell, cell ∈ [mkCoord (5 - 1) 1; mkCoord (5 + 1) 1;
                    mkCoord 5 (1 - 1); mkCoord 5 (1 + 1)] →
      ∃ sensor beacon, two_sensors !! sensor = Some beacon
        ∧ distance sensor cell <= distance sensor beacon.
Proof.
  apply (part2_point_uncovered two_sensors 2 5 1). vm_compute. reflexivity.
Defined.

(** X9: when the search of [part2] runs to its end, [part2] returns -1, and
    no row strictly inside the search area has a cell that no sensor covers
    while the four cells beside, above and below it are covered. *)
Theorem part2_sentinel_complete (data : gmap Coord Coord)
    (search_area_size px row : Z) :
  find_gap (sensors_of data) search_area_size = Some None →
  part2 data search_area_size = Some (-1)
  ∧ (0 < row < search_area_size →
     (∀ cell, cell ∈ [mkCoord (px - 1) row; mkCoord (px + 1) row;
                      mkCoord px (row - 1); mkCoord px (row + 1)] →
        ∃ sensor beacon, data !! sensor = Some beacon
          ∧ distance sensor cell <= distance sensor beacon) →
     ∃ sensor beacon, data !! sensor = Some beacon
       ∧ distance sensor (mkCoord px row) <= distance sensor beacon).
Proof.
  intros Hfound. split; [unfold part2; by rewrite Hfound |].
  intros Hrow Hcells. unfold find_gap in Hfound.
  destruct (scan_rows _ _ _) as [st|] eqn:Hscan; [|done]. simpl in Hfound.
  assert (∀ r, 0 <= r <= search_area_size →
            ∃ c, get_sensors_coverage_at_row (sensors_of data) r = Some c
                 ∧ st.1 !! r = Some c ∧ ((1 < length c)%nat → r ∈ st.2)) as Hst.
  { intros r Hr.
    destruct (scan_rows_stores _ _ _ _ r Hscan) as (c & Hc & [c' Hc'] & Hcand).
    { apply elem_of_seqZ. lia. }
    exists c. split_and!; [done | | done].
    destruct (scan_rows_lookup _ _ _ _ _ _ Hscan Hc') as [?|[_ ?]]; [done |].
    congruence. }
  destruct (Hst row) as (c & Hc & Hrc & Hcand); [lia |].
  destruct (Hst (row - 1)) as (above & Ha & Hrca & _); [lia |].
  destruct (Hst (row + 1)) as (below & Hb & Hrcb & _); [lia |].
  apply (coverage_of_data _ _ _ _ Hc).
  destruct (coverage_canonical _ _ _ Hc) as (_ & Hv & Hs).
  destruct (decide (covers c px)) as [|Hno]; [done | exfalso].
  assert (covers c (px - 1)) as Hl.
  { apply (coverage_of_data _ _ _ _ Hc), Hcells.
    repeat first [apply list_elem_of_here | apply list_elem_of_further]. }
  assert (covers c (px + 1)) as Hr.
  { apply (coverage_of_data _ _ _ _ Hc), Hcells.
    repeat first [apply list_elem_of_here | apply list_elem_of_further]. }
  assert (covers above px) as Hca.
  { apply (coverage_of_data _ _ _ _ Ha), Hcells.
    repeat first [apply list_elem_of_here | apply list_elem_of_further]. }
  assert (covers below px) as Hcb.
  { apply (coverage_of_data _ _ _ _ Hb), Hcells.
    repeat first [apply list_elem_of_here | apply list_elem_of_further]. }
  destruct (gap_pair c px Hv Hs Hl Hr Hno) as (i & left_ & right_ & Hi & HSi & H1 & H2).
  assert (1 < length c)%nat as Hlen.
  { apply lookup_lt_Some in HSi. lia. }
  pose proof (search_rows_None _ _ _ _ Hfound (Hcand Hlen) Hrc) as Hpairs.
  assert ((left_, right_) ∈ pairwise c) as Hin by (apply elem_of_pairwise; eauto).
  assert (gap_x left_ right_ = Some px) as Hgap by (apply gap_x_Some; lia).
  pose proof (search_pairs_None _ _ _ _ _ _ Hpairs Hin Hgap) as Hfalse.
  rewrite (covered_in_covers (sensors_of data) _ _ _ _ Hrca Hca) in Hfalse.
  by rewrite (covered_in_covers (sensors_of data) _ _ _ _ Hrcb Hcb) in Hfalse.
Qed.

Lemma part2_sentinel_complete_witness :
  part2 wide_sensor 2 = Some (-1)
  ∧ (0 < 1 < 2 →
     (∀ cell, cell ∈ [mkCoord (1 - 1) 1; mkCoord (1 + 1) 1;
                      mkCoord 1 (1 - 1); mkCoord 1 (1 + 1)] →
        ∃ sensor beacon, wide_sensor !! sensor = Some beacon
          ∧ distance sensor cell <= distance sensor beacon) →
     ∃ sensor beacon, wide_sensor !! sensor = Some beacon
       ∧ distance sensor (mkCoord 1 1) <= distance sensor beacon).
Proof.
  apply (part2_sentinel_complete wide_sensor 2 1 1). vm_compute. reflexivity.
Defined.

(** * The bounds of the scan *)

Section Bounds.

Lemma foldl_min_spec (l : list Z) : ∀ a,
  foldl Z.min a l ∈ a :: l ∧ ∀ z, z ∈ a :: l → foldl Z.min a l <= z.
Proof.
  induction l as [|b l IH]; intros a; simpl.
  { split; [by left |]. intros z ->%list_elem_of_singleton. lia. }
  destruct (IH (Z.min a b)) as [Hin Hle]. split.
  - apply elem_of_cons in Hin as [->|Hin].
    + destruct (Z.min_spec a b) as [[_ ->]|[_ ->]]; [by left | right; by left].
    + right. by right.
  - intros z Hz.
    pose proof (Hle (Z.min a b) (list_elem_of_here _ _)) as H0.
    apply elem_of_cons in Hz as [->|[->|Hz]%elem_of_cons]; [lia | lia |].
    apply Hle. by right.
Qed.

Lemma foldl_max_spec (l : list Z) : ∀ a,
  foldl Z.max a l ∈ a :: l ∧ ∀ z, z ∈ a :: l → z <= foldl Z.max a l.
Proof.
  induction l as [|b l IH]; intros a; simpl.
  { split; [by left |]. intros z ->%list_elem_of_singleton. lia. }
  destruct (IH (Z.max a b)) as [Hin Hle]. split.
  - apply elem_of_cons in Hin as [->|Hin].
    + destruct (Z.max_spec a b) as [[_ ->]|[_ ->]]; [right; by left | by left].
    + right. by right.
  - intros z Hz.
    pose proof (Hle (Z.max a b) (list_elem_of_here _ _)) as H0.
    apply elem_of_cons in Hz as [->|[->|Hz]%elem_of_cons]; [lia | lia |].
    apply Hle. by right.
Qed.

Lemma py_min_Some l m :
  py_min l = Some m → m ∈ l ∧ ∀ z, z ∈ l → m <= z.
Proof. destruct l as [|a l]; [done |]. intros [= <-]. apply foldl_min_spec. Qed.

Lemma py_max_Some l m :
  py_max l = Some m → m ∈ l ∧ ∀ z, z ∈ l → z <= m.
Proof. destruct l as [|a l]; [done |]. intros [= <-]. apply foldl_max_spec. Qed.

End Bounds.

(** X10: [get_scan_coverage_bounds] raises exactly on the empty set of
    sensors.  Otherwise each bound is attained by a sensor at the edge of its
    scan range, and every cell within the scan range of a sensor of the set
    lies within the bounds. *)
Theorem get_scan_coverage_bounds_spec (sensors : gset Sensor) (b : Boundaries) :
  (get_scan_coverage_bounds sensors = None ↔ sensors = ∅)
  ∧ (get_scan_coverage_bounds sensors = Some b →
     (∀ s c, s ∈ sensors → reaches s c →
        min_x b <= x c <= max_x b ∧ min_y b <= y c <= max_y b)
     ∧ (∃ s, s ∈ sensors ∧ min_x b = x (coord s) - scan_range s)
     ∧ (∃ s, s ∈ sensors ∧ max_x b = x (coord s) + scan_range s)
     ∧ (∃ s, s ∈ sensors ∧ min_y b = y (coord s) - scan_range s)
     ∧ (∃ s, s ∈ sensors ∧ max_y b = y (coord s) + scan_range s)).
Proof.
  unfold get_scan_coverage_bounds. split.
  - split.
    + intros Hnone. apply leibniz_equiv, elements_empty_iff.
      by destruct (elements sensors).
    + intros ->. by rewrite elements_empty.
  - intros Hb.
    apply bind_Some in Hb as (x0 & [Hx0 Hx0']%py_min_Some & Hb).
    apply bind_Some in Hb as (x1 & [Hx1 Hx1']%py_max_Some & Hb).
    apply bind_Some in Hb as (y0 & [Hy0 Hy0']%py_min_Some & Hb).
    apply bind_Some in Hb as (y1 & [Hy1 Hy1']%py_max_Some & Hb).
    injection Hb as <-. simpl.
    apply list_elem_of_fmap in Hx0 as (s0 & -> & Hs0%elem_of_elements).
    apply list_elem_of_fmap in Hx1 as (s1 & -> & Hs1%elem_of_elements).
    apply list_elem_of_fmap in Hy0 as (s2 & -> & Hs2%elem_of_elements).
    apply list_elem_of_fmap in Hy1 as (s3 & -> & Hs3%elem_of_elements).
    split_and!; eauto.
    intros s c Hs%elem_of_elements Hr. unfold reaches, distance in Hr.
    pose proof (Hx0' _ (list_elem_of_fmap_2 (λ s, x (coord s) - scan_range s) _ _ Hs)).
    pose proof (Hx1' _ (list_elem_of_fmap_2 (λ s, x (coord s) + scan_range s) _ _ Hs)).
    pose proof (Hy0' _ (list_elem_of_fmap_2 (λ s, y (coord s) - scan_range s) _ _ Hs)).
    pose proof (Hy1' _ (list_elem_of_fmap_2 (λ s, y (coord s) + scan_range s) _ _ Hs)).
    simpl in *. lia.
Qed.

Lemma get_scan_coverage_bounds_spec_witness :
  (∀ s c, s ∈ sensors_of two_sensors → reaches s c →
     3 <= x c <= 7 ∧ -1 <= y c <= 3)
  ∧ (∃ s, s ∈ sensors_of two_sensors ∧ 3 = x (coord s) - scan_range s)
  ∧ (∃ s, s ∈ sensors_of two_sensors ∧ 7 = x (coord s) + scan_range s)
  ∧ (∃ s, s ∈ sensors_of two_sensors ∧ -1 = y (coord s) - scan_range s)
  ∧ (∃ s, s ∈ sensors_of two_sensors ∧ 3 = y (coord s) + scan_range s).
Proof.
  apply (get_scan_coverage_bounds_spec (sensors_of two_sensors)
           (mkBoundaries 3 7 (-1) 3)).
  vm_compute. reflexivity.
Defined.

(** * The grid of sensors and beacons *)

Section Grid.

Implicit Types (items : list (Coord * Coord)) (c : Coord).

Lemma data_to_grid_snoc items sensor beacon :
  data_to_grid (items ++ [(sensor, beacon)])
  = <[beacon := BEACON]> (<[sensor := SENSOR]> (data_to_grid items)).
Proof. unfold data_to_grid. by rewrite foldl_app. Qed.

Lemma data_to_grid_None items c :
  data_to_grid items !! c = None ↔ (c ∉ fst <$> items) ∧ (c ∉ snd <$> items).
Proof.
  induction items as [|[s b] items IH] using rev_ind.
  { split; [intros _; split; apply not_elem_of_nil | done]. }
  rewrite data_to_grid_snoc, !lookup_insert_None, IH, !fmap_app. simpl.
  rewrite !not_elem_of_app, !list_elem_of_singleton. intuition congruence.
Qed.

Lemma data_to_grid_values items c v :
  data_to_grid items !! c = Some v → v = SENSOR ∨ v = BEACON.
Proof.
  revert v. induction items as [|[s b] items IH] using rev_ind; intros v.
  { unfold data_to_grid. simpl. by rewrite lookup_empty. }
  rewrite data_to_grid_snoc, !lookup_insert_Some.
  intros [[_ <-]|[_ [[_ <-]|[_ Hv]]]]; auto.
Qed.

Lemma data_to_grid_beacon items c :
  c ∈ (snd <$> items) → c ∉ (fst <$> items) → data_to_grid items !! c = Some BEACON.
Proof.
  induction items as [|[s b] items IH] using rev_ind.
  { by intros ?%elem_of_nil. }
  rewrite data_to_grid_snoc, !fmap_app. simpl.
  rewrite elem_of_app, not_elem_of_app, !list_elem_of_singleton.
  intros Hb [Hs1 Hs2]. destruct (decide (b = c)) as [->|Hne].
  - by rewrite lookup_insert_eq.
  - rewrite !lookup_insert_ne by done. apply IH; [| done].
    by destruct Hb as [?|?].
Qed.

Lemma data_to_grid_sensor items c :
  c ∈ (fst <$> items) → c ∉ (snd <$> items) → data_to_grid items !! c = Some SENSOR.
Proof.
  induction items as [|[s b] items IH] using rev_ind.
  { by intros ?%elem_of_nil. }
  rewrite data_to_grid_snoc, !fmap_app. simpl.
  rewrite elem_of_app, not_elem_of_app, !list_elem_of_singleton.
  intros Hs [Hb1 Hb2]. rewrite lookup_insert_ne by done.
  destruct (decide (s = c)) as [->|Hne].
  - by rewrite lookup_insert_eq.
  - rewrite lookup_insert_ne by done. apply IH; [| done].
    by destruct Hs as [?|?].
Qed.

End Grid.

(** X11: the grid built by [data_to_grid] has an entry exactly at the
    sensors and beacons of the mapping, every entry is ["S"] or ["B"], a
    beacon that is no sensor is ["B"] and a sensor that is no beacon is
    ["S"], in whatever order the mapping is gone through. *)
Theorem data_to_grid_spec (items : list (Coord * Coord)) (c : Coord) :
  (data_to_grid items !! c = None ↔ (c ∉ fst <$> items) ∧ (c ∉ snd <$> items))
  ∧ (∀ v, data_to_grid items !! c = Some v → v = SENSOR ∨ v = BEACON)
  ∧ (c ∈ (snd <$> items) → c ∉ (fst <$> items) → data_to_grid items !! c = Some BEACON)
  ∧ (c ∈ (fst <$> items) → c ∉ (snd <$> items) → data_to_grid items !! c = Some SENSOR).
Proof.
  split_and!.
  - apply data_to_grid_None.
  - apply data_to_grid_values.
  - apply data_to_grid_beacon.
  - apply data_to_grid_sensor.
Qed.

Lemma data_to_grid_spec_witness :
  data_to_grid (map_to_list example_data) !! mkCoord 10 16 = Some BEACON
  ∧ data_to_grid (map_to_list example_data) !! mkCoord 8 7 = Some SENSOR.
Proof.
  split.
  - apply (data_to_grid_spec (map_to_list example_data) (mkCoord 10 16)).
    + apply (bool_decide_unpack _). vm_compute. exact I.
    + apply (bool_decide_unpack _). vm_compute. exact I.
  - apply (data_to_grid_spec (map_to_list example_data) (mkCoord 8 7)).
    + apply (bool_decide_unpack _). vm_compute. exact I.
    + apply (bool_decide_unpack _). vm_compute. exact I.
Defined.

(** * Parsing the documented format *)

Section ParseMore.

Local Open Scope string_scope.

Lemma int_from_of_uint_acc d : ∀ acc : positive,
  int_from (Z.pos acc) (NilEmpty.string_of_uint d)
  = Z.pos (Pos.of_uint_acc d acc).
Proof.
  induction d; intros acc; cbn [NilEmpty.string_of_uint int_from Pos.of_uint_acc];
    [done | rewrite <-IHd; f_equal; unfold digit_value; simpl; lia ..].
Qed.

Lemma int_from_of_uint d :
  int_from 0 (NilEmpty.string_of_uint d) = Z.of_N (Pos.of_uint d).
Proof.
  induction d; cbn [NilEmpty.string_of_uint int_from Pos.of_uint];
    [done | exact IHd | apply (int_from_of_uint_acc d) ..].
Qed.

Lemma int_from_show_int n : 0 <= n → int_from 0 (show_int n) = n.
Proof.
  intros Hn. unfold show_int. destruct n as [|p|p]; [done | | lia].
  cbn [Z.to_int NilZero.string_of_int].
  assert (NilZero.string_of_uint (Pos.to_uint p)
          = NilEmpty.string_of_uint (Pos.to_uint p)) as ->.
  { pose proof (DecimalPos.Unsigned.of_to p) as Hp.
    destruct (Pos.to_uint p); [done | done ..]. }
  by rewrite int_from_of_uint, DecimalPos.Unsigned.of_to.
Qed.

(** Printing a non-negative integer and reading it back, when its numeral
    is not too long for [int]. *)
Lemma int_show_int n : 0 <= n → short n → int (show_int n) = Some n.
Proof.
  intros Hn Hshort. unfold int.
  rewrite (proj2 (Z.leb_le _ _) Hshort). by rewrite int_from_show_int.
Qed.

(** A numeral that is too long makes [int] raise. *)
Lemma int_show_int_long n : ¬ short n → int (show_int n) = None.
Proof.
  intros Hlong. unfold int, short in *.
  by destruct (Z.leb_spec (Z.of_nat (String.length (show_int n)))
                 int_max_str_digits).
Qed.

Lemma parse_line_format data sx sy bx by_ :
  0 <= sx → 0 <= sy → 0 <= bx → 0 <= by_ →
  short sx → short sy → short bx → short by_ →
  parse_line data (format_line sx sy bx by_)
  = Some (<[mkCoord sx sy := mkCoord bx by_]> data).
Proof.
  intros. unfold parse_line.
  rewrite input_regex_match_format by done. by rewrite !int_show_int.
Qed.

Lemma no_linebreak_app s t :
  no_linebreak s → no_linebreak t → no_linebreak (s ++ t).
Proof.
  intros Hs Ht. induction s as [|c s IH]; [done |].
  destruct Hs as [Hc Hs]. change (no_linebreak (String c (s ++ t))).
  split; [done | by apply IH].
Qed.

Lemma no_linebreak_digits s : all_digits s → no_linebreak s.
Proof.
  induction s as [|c s IH]; [done |]. intros [Hc Hs]. split; [| by apply IH].
  unfold is_digit in Hc. apply andb_prop in Hc as [H1%N.leb_le H2%N.leb_le].
  unfold is_linebreak. apply bool_decide_eq_false.
  rewrite !elem_of_cons, elem_of_nil. lia.
Qed.

Lemma no_linebreak_show_int n : no_linebreak (show_int n).
Proof.
  destruct n as [|p|p].
  - by vm_compute.
  - apply no_linebreak_digits, show_int_nonneg. lia.
  - unfold show_int. cbn [Z.to_int NilZero.string_of_int].
    split; [done |]. apply no_linebreak_digits, string_of_uint_all_digits.
Qed.

Lemma no_linebreak_format_line sx sy bx by_ :
  no_linebreak (format_line sx sy bx by_).
Proof.
  unfold format_line.
  repeat (apply no_linebreak_app; [first [apply no_linebreak_show_int
                                          | by vm_compute] |]).
  apply no_linebreak_show_int.
Qed.

Lemma append_assoc_1 s c t : (s ++ String c "") ++ t = s ++ String c t.
Proof.
  induction s as [|c' s IH]; [done |].
  change (String c' ((s ++ String c "") ++ t) = String c' (s ++ String c t)).
  by rewrite IH.
Qed.

Lemma splitlines_from_line s : ∀ cur t,
  no_linebreak s →
  splitlines_from cur (s ++ String "010" t)
  = (cur ++ s) :: splitlines_from "" t.
Proof.
  induction s as [|c s IH]; intros cur t Hs.
  - change (splitlines_from cur (String "010" t) = (cur ++ "") :: splitlines_from "" t).
    assert (cur ++ "" = cur) as ->.
    { clear. induction cur as [|c cur IH]; [done |].
      change (String c (cur ++ "") = String c cur). by rewrite IH. }
    by destruct t.
  - destruct Hs as [Hc Hs].
    change (splitlines_from cur (String c (s ++ String "010" t))
            = (cur ++ String c s) :: splitlines_from "" t).
    cbn [splitlines_from]. rewrite Hc, IH by done. by rewrite append_assoc_1.
Qed.

Lemma splitlines_format_lines pairs :
  splitlines (format_lines pairs)
  = (λ '(s, b), format_line (x s) (y s) (x b) (y b)) <$> pairs.
Proof.
  unfold splitlines. induction pairs as [|[s b] pairs IH]; [done |].
  cbn [format_lines fmap list_fmap].
  rewrite splitlines_from_line by apply no_linebreak_format_line.
  by rewrite IH.
Qed.

Lemma parse_line_no_match data line :
  input_regex_match line = None → parse_line data line = Some data.
Proof. intros Hline. unfold parse_line. by rewrite Hline. Qed.

Lemma parse_empty_of_no_match (lines : list string) data :
  Forall (λ line, input_regex_match line = None) lines →
  for_each parse_line data lines = Some data.
Proof.
  revert data. induction lines as [|line lines IH]; intros data Hall; [done |].
  apply Forall_cons in Hall as [Hline Hall]. cbn [for_each].
  rewrite parse_line_no_match, bind_Some_l by done. by apply IH.
Qed.

End ParseMore.

(** X12: [parse] reads back a text written in the documented format, as long
    as no numeral it has to convert is longer than [int] accepts: the pairs
    with a negative coordinate are left out, the others are stored, a later
    line replacing an earlier one for the same sensor. *)
Theorem parse_format_lines (pairs : list (Coord * Coord)) :
  Forall (λ p, short (x p.1) ∧ short (y p.1) ∧ short (x p.2) ∧ short (y p.2))
         (filter (λ p, nonneg p.1 ∧ nonneg p.2) pairs) →
  parse (format_lines pairs)
  = Some (foldl (λ data '(sensor, beacon), <[sensor := beacon]> data) ∅
                (filter (λ p, nonneg p.1 ∧ nonneg p.2) pairs)).
Proof.
  unfold parse. rewrite splitlines_format_lines.
  generalize (∅ : gmap Coord Coord).
  induction pairs as [|[[sx sy] [bx by_]] pairs IH]; intros data Hshort; [done |].
  cbn [fmap list_fmap for_each x y].
  rewrite filter_cons in Hshort |- *.
  case_decide as Hnn; unfold nonneg in Hnn; simpl in Hnn.
  - destruct Hnn as [[??] [??]].
    apply Forall_cons in Hshort as [(? & ? & ? & ?) Hshort].
    rewrite parse_line_format, bind_Some_l by done. by rewrite IH.
  - rewrite parse_line_no_match, bind_Some_l
      by (apply input_regex_match_negative; lia).
    by rewrite IH.
Qed.

Lemma parse_format_lines_witness :
  parse (format_lines [(mkCoord 2 18, mkCoord (-2) 15);
                       (mkCoord 9 16, mkCoord 10 16);
                       (mkCoord 9 16, mkCoord 12 14)])
  = Some (foldl (λ data '(sensor, beacon), <[sensor := beacon]> data) ∅
                (filter (λ p, nonneg p.1 ∧ nonneg p.2)
                        [(mkCoord 2 18, mkCoord (-2) 15);
                         (mkCoord 9 16, mkCoord 10 16);
                         (mkCoord 9 16, mkCoord 12 14)])).
Proof.
  apply (parse_format_lines [(mkCoord 2 18, mkCoord (-2) 15);
                             (mkCoord 9 16, mkCoord 10 16);
                             (mkCoord 9 16, mkCoord 12 14)]).
  apply (bool_decide_unpack _). vm_compute. exact I.
Defined.

(** X13: on an input in which no line matches the pattern, and so on the
    empty input, [solve] raises: the mapping is empty and no sensor covers
    the row of [part1]. *)
Theorem solve_raises_without_sensors (puzzle_input : string)
    (row search_area_size : Z) :
  Forall (λ line, input_regex_match line = None) (splitlines puzzle_input) →
  parse puzzle_input = Some ∅
  ∧ solve puzzle_input row search_area_size = None.
Proof.
  intros Hall.
  assert (parse puzzle_input = Some ∅) as Hparse
    by (by apply parse_empty_of_no_match).
  split; [done |]. unfold solve. rewrite Hparse, bind_Some_l.
  unfold part1, sensors_of, get_sensors_coverage_at_row.
  rewrite map_to_list_empty. cbn [foldl]. by rewrite elements_empty.
Qed.

Lemma solve_raises_without_sensors_witness :
  parse (format_line (-1) 2 3 4) = Some ∅
  ∧ solve (format_line (-1) 2 3 4) 10 20 = None.
Proof.
  apply (solve_raises_without_sensors (format_line (-1) 2 3 4) 10 20).
  apply (bool_decide_unpack _). vm_compute. exact I.
Defined.

(** * Day 5: the two parsers *)

Section Day05Facts.

Import Day05.
Local Open Scope string_scope.

Lemma append_cons c s t : String c s ++ t = String c (s ++ t).
Proof. done. Qed.

Lemma append_nil_l t : "" ++ t = t.
Proof. done. Qed.

Lemma append_assoc s t u : (s ++ t) ++ u = s ++ t ++ u.
Proof.
  induction s as [|c s IH]; [done |]. by rewrite !append_cons, IH.
Qed.

Lemma command_pattern_match_all_digits line g1 g2 g3 :
  command_pattern_match line = Some (g1, g2, g3) →
  all_digits g1 ∧ all_digits g2 ∧ all_digits g3.
Proof.
  unfold command_pattern_match. intros H.
  apply bind_Some in H as (s1 & _ & H).
  apply bind_Some in H as ([d1 s2] & Hd1%match_digits_all_digits & H).
  apply bind_Some in H as (s3 & _ & H).
  apply bind_Some in H as ([d2 s4] & Hd2%match_digits_all_digits & H).
  apply bind_Some in H as (s5 & _ & H).
  apply bind_Some in H as ([d3 s6] & Hd3%match_digits_all_digits & H).
  by injection H as <- <- <-.
Qed.

Lemma match_digits_rest d rest :
  all_digits d → d ≠ "" → no_digit_head rest →
  match_digits (d ++ rest) = Some (d, rest).
Proof. apply match_digits_app. Qed.

Ltac pattern_literal := rewrite match_literal_app, bind_Some_l.
Ltac pattern_group H :=
  rewrite match_digits_app by (done || apply H);
  rewrite bind_Some_l; cbv beta iota.

(** A command followed by any text that does not go on with a digit. *)
Lemma command_pattern_match_format m rest :
  0 <= count m → 0 <= source m → 0 <= target m → no_digit_head rest →
  command_pattern_match (format_move m ++ rest)
  = Some (show_int (count m), show_int (source m), show_int (target m)).
Proof.
  intros H1%show_int_nonneg H2%show_int_nonneg H3%show_int_nonneg Hrest.
  unfold command_pattern_match, format_move.
  rewrite !append_assoc.
  pattern_literal. pattern_group H1. pattern_literal. pattern_group H2.
  pattern_literal. rewrite match_digits_app by (done || apply H3). done.
Qed.

Lemma parse_moves_line_format commands m rest :
  0 <= count m → 0 <= source m → 0 <= target m →
  short (count m) → short (source m) → short (target m) →
  no_digit_head rest →
  parse_moves_line commands (format_move m ++ rest)
  = Some (commands ++ [m])%list.
Proof.
  intros. unfold parse_moves_line.
  rewrite command_pattern_match_format by done.
  rewrite !int_show_int by done. by destruct m.
Qed.

Lemma no_linebreak_format_move m : no_linebreak (format_move m).
Proof.
  unfold format_move.
  repeat (apply no_linebreak_app; [first [apply no_linebreak_show_int
                                          | by vm_compute] |]).
  apply no_linebreak_show_int.
Qed.

Lemma splitlines_format_moves ms :
  splitlines (format_moves ms) = format_move <$> ms.
Proof.
  unfold splitlines. induction ms as [|m ms IH]; [done |].
  cbn [format_moves fmap list_fmap].
  rewrite splitlines_from_line by apply no_linebreak_format_move.
  by rewrite IH.
Qed.

Lemma append_nil_r s : s ++ "" = s.
Proof.
  induction s as [|c s IH]; [done |]. by rewrite append_cons, IH.
Qed.

(** *** Commas, spaces and the rest of the line *)

Lemma split_comma_cons s : ∃ piece pieces, split_comma s = piece :: pieces.
Proof.
  induction s as [|c s (piece & pieces & IH)]; simpl; [by eauto |].
  destruct (Ascii.eqb c ","); [by eauto |]. rewrite IH. eauto.
Qed.

Lemma split_comma_plain p : plain p → split_comma p = [p].
Proof.
  induction p as [|c p IH]; [done |]. intros (Hc & _ & Hp).
  simpl. by rewrite Hc, IH.
Qed.

Lemma split_comma_app p t :
  plain p → split_comma (p ++ String "," t) = p :: split_comma t.
Proof.
  induction p as [|c p IH]; [done |]. intros (Hc & _ & Hp).
  rewrite append_cons. simpl. by rewrite Hc, IH.
Qed.

Lemma split_join_comma crates :
  crates ≠ [] → Forall plain crates →
  split_comma (join_comma crates) = crates.
Proof.
  induction crates as [|p crates IH]; [done |]. intros _ Hall.
  apply Forall_cons in Hall as [Hp Hall].
  destruct crates as [|q crates]; [by apply split_comma_plain |].
  change (join_comma (p :: q :: crates))
    with (p ++ String "," (join_comma (q :: crates))).
  rewrite split_comma_app by done. by rewrite IH.
Qed.

Lemma plain_app s t : plain s → plain t → plain (s ++ t).
Proof.
  intros Hs Ht. induction s as [|c s IH]; [done |].
  destruct Hs as (? & ? & Hs). rewrite append_cons. simpl. auto.
Qed.

Lemma plain_no_newline c : is_space c = false → Ascii.eqb c "010" = false.
Proof.
  intros Hc. destruct (Ascii.eqb_spec c "010") as [->|]; [| done].
  by vm_compute in Hc.
Qed.

Lemma span_line_plain_app s t : plain s → span_line (s ++ t) = s ++ span_line t.
Proof.
  induction s as [|c s IH]; [done |]. intros (_ & Hc%plain_no_newline & Hs).
  rewrite !append_cons. simpl. by rewrite Hc, IH.
Qed.

Lemma span_line_blanks n t : span_line (blanks n ++ t) = blanks n ++ span_line t.
Proof.
  induction n as [|n IH]; [done |]. simpl blanks. rewrite !append_cons.
  simpl. by rewrite IH.
Qed.

Lemma lstrip_blanks n t : lstrip (blanks n ++ t) = lstrip t.
Proof. induction n as [|n IH]; [done |]. simpl blanks. by rewrite append_cons. Qed.

Lemma lstrip_no_space s t : no_space s → s ≠ "" → lstrip (s ++ t) = s ++ t.
Proof.
  destruct s as [|c s]; [done |]. intros (Hc & _) _.
  rewrite append_cons. simpl. by rewrite Hc.
Qed.

Lemma rstrip_blanks n : rstrip (blanks n) = "".
Proof. induction n as [|n IH]; [done |]. simpl. by rewrite IH. Qed.

Lemma rstrip_no_space_blanks s n : no_space s → rstrip (s ++ blanks n) = s.
Proof.
  induction s as [|c s IH]; [intros _; apply rstrip_blanks |].
  intros (Hc & Hs). rewrite append_cons. simpl. rewrite IH by done.
  destruct s; [by rewrite Hc | done].
Qed.

Lemma strip_padded s n1 n2 :
  no_space s → strip (blanks n1 ++ s ++ blanks n2) = s.
Proof.
  intros Hs. unfold strip. rewrite lstrip_blanks.
  destruct (decide (s = "")) as [->|Hne].
  - rewrite append_nil_l.
    assert (lstrip (blanks n2) = "") as ->; [| done].
    rewrite <-(append_nil_r (blanks n2)). by rewrite lstrip_blanks.
  - rewrite lstrip_no_space by done. by apply rstrip_no_space_blanks.
Qed.

Lemma no_space_plain s : plain s → no_space s.
Proof. induction s as [|c s IH]; [done |]. intros (_ & ? & ?). split; auto. Qed.

Lemma no_space_app s t : no_space s → no_space t → no_space (s ++ t).
Proof.
  intros Hs Ht. induction s as [|c s IH]; [done |].
  destruct Hs as (? & Hs). rewrite append_cons. split; auto.
Qed.

Lemma no_space_join_comma crates :
  Forall plain crates → no_space (join_comma crates).
Proof.
  induction crates as [|p crates IH]; [done |]. intros Hall.
  apply Forall_cons in Hall as [Hp%no_space_plain Hall].
  destruct crates as [|q crates]; [done |].
  change (join_comma (p :: q :: crates))
    with (p ++ String "," (join_comma (q :: crates))).
  apply no_space_app; [done |]. split; [done | by apply IH].
Qed.

Lemma span_line_blanks_only n : span_line (blanks n) = blanks n.
Proof. induction n as [|n IH]; [done |]. simpl. by rewrite IH. Qed.

Lemma plain_join_comma_pieces crates t :
  Forall plain crates →
  span_line (join_comma crates ++ t) = join_comma crates ++ span_line t.
Proof.
  induction crates as [|p crates IH]; [done |]. intros Hall.
  apply Forall_cons in Hall as [Hp Hall].
  destruct crates as [|q crates]; [by apply span_line_plain_app |].
  change (join_comma (p :: q :: crates))
    with (p ++ String "," (join_comma (q :: crates))).
  rewrite !append_assoc, span_line_plain_app by done.
  rewrite !append_cons. cbn [span_line].
  change (Ascii.eqb "," "010") with false. cbv iota. by rewrite IH.
Qed.

End Day05Facts.

(** X14: [parse_moves] reads back a text of commands written in the
    puzzle's format, one per line, with non-negative numbers whose numerals
    are not longer than [int] accepts: it returns the commands in the order
    of the lines. *)
Theorem parse_moves_format_moves (ms : list Day05.Move) :
  Forall (λ m, (0 <= Day05.count m ∧ 0 <= Day05.source m ∧ 0 <= Day05.target m)
               ∧ short (Day05.count m) ∧ short (Day05.source m)
               ∧ short (Day05.target m)) ms →
  Day05.parse_moves (Day05.format_moves ms) = Some ms.
Proof.
  intros Hall. unfold Day05.parse_moves. rewrite splitlines_format_moves.
  enough (∀ acc, for_each Day05.parse_moves_line acc (Day05.format_move <$> ms)
                 = Some (acc ++ ms)) as H by apply (H []).
  induction Hall as [|m ms ((? & ? & ?) & ? & ? & ?) Hall IH]; intros acc.
  { cbn [fmap list_fmap for_each]. by rewrite app_nil_r. }
  cbn [fmap list_fmap for_each].
  rewrite <-(append_nil_r (Day05.format_move m)).
  rewrite parse_moves_line_format, bind_Some_l by done.
  by rewrite IH, <-(assoc_L (++)).
Qed.

Lemma parse_moves_format_moves_witness :
  Day05.parse_moves
    (Day05.format_moves
       [Day05.mkMove 1 2 1; Day05.mkMove 3 1 3; Day05.mkMove 2 2 1; Day05.mkMove 1 1 2])
  = Some [Day05.mkMove 1 2 1; Day05.mkMove 3 1 3; Day05.mkMove 2 2 1;
          Day05.mkMove 1 1 2].
Proof.
  apply (parse_moves_format_moves
           [Day05.mkMove 1 2 1; Day05.mkMove 3 1 3; Day05.mkMove 2 2 1; Day05.mkMove 1 1 2]).
  repeat constructor; vm_compute; discriminate.
Defined.

(** X15: the pattern of a command is tied to the start of the line only:
    a command (with numerals that [int] accepts) followed by any text that
    does not begin with a digit is read as the command alone. *)
Theorem parse_moves_line_ignores_rest (commands : list Day05.Move)
    (m : Day05.Move) (rest : string) :
  0 <= Day05.count m → 0 <= Day05.source m → 0 <= Day05.target m →
  short (Day05.count m) → short (Day05.source m) → short (Day05.target m) →
  no_digit_head rest →
  Day05.parse_moves_line commands (Day05.format_move m ++ rest)%string
  = Some (commands ++ [m]).
Proof. apply parse_moves_line_format. Qed.

Lemma parse_moves_line_ignores_rest_witness :
  Day05.parse_moves_line [] (Day05.format_move (Day05.mkMove 1 2 1) ++ " crates")%string
  = Some ([] ++ [Day05.mkMove 1 2 1]).
Proof.
  apply (parse_moves_line_ignores_rest [] (Day05.mkMove 1 2 1) " crates");
    vm_compute; (discriminate || reflexivity).
Defined.

(** X16: every command returned by [parse_moves] has non-negative numbers,
    and there are at most as many commands as lines. *)
Theorem parse_moves_nonnegative (moves_input : string) (ms : list Day05.Move) :
  Day05.parse_moves moves_input = Some ms →
  Forall (λ m, 0 <= Day05.count m ∧ 0 <= Day05.source m ∧ 0 <= Day05.target m) ms
  ∧ (length ms ≤ length (splitlines moves_input))%nat.
Proof.
  unfold Day05.parse_moves.
  enough (∀ lines acc,
    for_each Day05.parse_moves_line acc lines = Some ms →
    Forall (λ m, 0 <= Day05.count m ∧ 0 <= Day05.source m ∧ 0 <= Day05.target m) acc →
    Forall (λ m, 0 <= Day05.count m ∧ 0 <= Day05.source m ∧ 0 <= Day05.target m) ms
    ∧ (length ms ≤ length acc + length lines)%nat) as H.
  { intros Hms. apply (H (splitlines moves_input) [] Hms). constructor. }
  induction lines as [|line lines IH]; intros acc; cbn [for_each].
  { intros [= <-] Hacc. split; [done | simpl; lia]. }
  intros (acc' & Hline & Hrest)%bind_Some Hacc.
  unfold Day05.parse_moves_line in Hline.
  destruct (Day05.command_pattern_match line) as [[[g1 g2] g3]|] eqn:Hm.
  - apply command_pattern_match_all_digits in Hm as (H1 & H2 & H3).
    apply bind_Some in Hline as (c & Hc%int_nonneg & Hline); [| done].
    apply bind_Some in Hline as (src & Hsrc%int_nonneg & Hline); [| done].
    apply bind_Some in Hline as (tgt & Htgt%int_nonneg & Hline); [| done].
    injection Hline as <-.
    destruct (IH _ Hrest) as [IH1 IH2].
    { apply Forall_app. split; [done |]. by constructor. }
    split; [done |]. rewrite length_app in IH2. simpl in *. lia.
  - injection Hline as <-. destruct (IH _ Hrest Hacc) as [IH1 IH2].
    split; [done | simpl; lia].
Qed.

Lemma parse_moves_nonnegative_witness :
  Forall (λ m, 0 <= Day05.count m ∧ 0 <= Day05.source m ∧ 0 <= Day05.target m)
         [Day05.mkMove 1 2 1; Day05.mkMove 3 1 3]
  ∧ (length [Day05.mkMove 1 2 1; Day05.mkMove 3 1 3]
     ≤ length (splitlines
                 (Day05.format_moves [Day05.mkMove 1 2 1; Day05.mkMove 3 1 3])))%nat.
Proof.
  apply (parse_moves_nonnegative
           (Day05.format_moves [Day05.mkMove 1 2 1; Day05.mkMove 3 1 3])
           [Day05.mkMove 1 2 1; Day05.mkMove 3 1 3]).
  vm_compute. reflexivity.
Defined.

(** X17: every stack returned by [parse_init] has a non-negative number and
    at least one crate: a line with nothing after the colon gives a stack
    holding one crate whose name is the empty string. *)
Theorem parse_init_stacks_nonempty (init_input : string)
    (init_data : gmap Z (list string)) :
  (Day05.parse_init init_input = Some init_data →
   map_Forall (λ k stack, 0 <= k ∧ stack ≠ []) init_data)
  ∧ ∀ data, Day05.parse_init_line data "3:" = Some (<[3 := [EmptyString]]> data).
Proof.
  split; [| done]. unfold Day05.parse_init.
  enough (∀ lines data,
    for_each Day05.parse_init_line data lines = Some init_data →
    map_Forall (λ (k : Z) (stack : list string), 0 <= k ∧ stack ≠ []) data →
    map_Forall (λ (k : Z) (stack : list string), 0 <= k ∧ stack ≠ [])
               init_data) as H.
  { intros Hinit. apply (H _ _ Hinit), map_Forall_empty. }
  induction lines as [|line lines IH]; intros data; cbn [for_each].
  { by intros [= <-]. }
  intros (data' & Hline & Hrest)%bind_Some Hdata. apply (IH _ Hrest).
  unfold Day05.parse_init_line in Hline.
  destruct (Day05.init_pattern_match line) as [[g1 g2]|] eqn:Hm;
    [| by injection Hline as <-].
  unfold Day05.init_pattern_match in Hm.
  apply bind_Some in Hm as ([d s] & Hd%match_digits_all_digits & Hm).
  apply bind_Some in Hm as (s' & _ & Hm). injection Hm as <- <-.
  apply bind_Some in Hline as (k & Hk%int_nonneg & Hline); [| done].
  injection Hline as <-. apply map_Forall_insert_2; [| done].
  split; [done |].
  destruct (split_comma_cons (Day05.strip (Day05.span_line s'))) as (p & ps & ->).
  intros Hrev%(f_equal length). rewrite length_reverse in Hrev. done.
Qed.

Lemma parse_init_stacks_nonempty_witness :
  map_Forall (λ k stack, 0 <= k ∧ stack ≠ [])
             ({[ 3 := [EmptyString] ]} : gmap Z (list string))
  ∧ ∀ data, Day05.parse_init_line data "3:" = Some (<[3 := [EmptyString]]> data).
Proof.
  destruct (parse_init_stacks_nonempty "3:" {[ 3 := [EmptyString] ]}) as [H1 H2].
  split; [| exact H2]. apply H1. vm_compute. reflexivity.
Defined.

(** X18: [parse_init] reads a line made of a non-negative stack number
    (with a numeral that [int] accepts), a colon and crate names separated
    by commas, with blanks allowed around the names as a whole: the stack
    holds the crates in reverse order, the last one of the line at the left
    end. *)
Theorem parse_init_line_format (data : gmap Z (list string)) (k : Z)
    (crates : list string) (n1 n2 : nat) :
  0 <= k → short k → crates ≠ [] → Forall Day05.plain crates →
  Day05.parse_init_line data
    (show_int k ++ ":" ++ Day05.blanks n1 ++ Day05.join_comma crates
     ++ Day05.blanks n2)%string
  = Some (<[k := reverse crates]> data).
Proof.
  intros Hk Hshort Hne Hall.
  unfold Day05.parse_init_line, Day05.init_pattern_match.
  destruct (show_int_nonneg k Hk) as [Hd Hnil].
  rewrite match_digits_app by done. rewrite bind_Some_l. cbv beta iota.
  rewrite match_literal_app, bind_Some_l.
  rewrite span_line_blanks, plain_join_comma_pieces, span_line_blanks_only by done.
  rewrite strip_padded by (by apply no_space_join_comma).
  by rewrite split_join_comma, int_show_int.
Qed.

Lemma parse_init_line_format_witness :
  Day05.parse_init_line ∅ (show_int 1 ++ ":" ++ Day05.blanks 1
                           ++ Day05.join_comma ["Z"; "N"]
                           ++ Day05.blanks 0)%string
  = Some (<[1 := reverse ["Z"; "N"]%string]> ∅).
Proof.
  apply (parse_init_line_format ∅ 1 ["Z"; "N"]%string 1 0).
  - lia.
  - vm_compute. discriminate.
  - discriminate.
  - repeat constructor.
Defined.

(** * When the solvers raise *)

Section Raises.

Implicit Types (sensors : gset Sensor) (data : gmap Coord Coord)
  (st : gmap Z (list range) * list Z) (rows : list Z).

Lemma coverage_None_data data row :
  get_sensors_coverage_at_row (sensors_of data) row = None
  ↔ ∀ sensor beacon, data !! sensor = Some beacon →
      distance sensor beacon < Z.abs (row - y sensor).
Proof.
  unfold get_sensors_coverage_at_row.
  rewrite blend_coverage_ranges_None, omap_nil_iff.
  setoid_rewrite elem_of_elements. setoid_rewrite elem_of_sensors_of.
  unfold get_coverage_at_row, compute_row_interval. split.
  - intros H sensor beacon Hd.
    specialize (H (mkSensor sensor (distance sensor beacon))
                  ltac:(eauto)). simpl in H.
    destruct (Z.ltb_spec (distance sensor beacon - Z.abs (row - y sensor)) 0);
      [lia | done].
  - intros H s (sensor & beacon & Hd & ->). simpl.
    specialize (H sensor beacon Hd).
    destruct (Z.ltb_spec (distance sensor beacon - Z.abs (row - y sensor)) 0);
      [done | lia].
Qed.

Lemma scan_rows_None_inv sensors rows : ∀ st,
  scan_rows sensors rows st = None →
  ∃ row, row ∈ rows ∧ get_sensors_coverage_at_row sensors row = None.
Proof.
  induction rows as [|r rows IH]; intros st; simpl; [done |].
  destruct (scan_row sensors st r) as [st1|] eqn:Hrow; simpl.
  - intros (row & Hin & Hnone)%IH. exists row. split; [by right | done].
  - intros _. exists r. split; [by left |].
    unfold scan_row in Hrow.
    by destruct (get_sensors_coverage_at_row sensors r).
Qed.

Lemma scan_rows_candidates_inv sensors rows : ∀ st st' r,
  scan_rows sensors rows st = Some st' → r ∈ st'.2 →
  r ∈ st.2
  ∨ (r ∈ rows ∧ ∃ c, get_sensors_coverage_at_row sensors r = Some c
                     ∧ (1 < length c)%nat).
Proof.
  induction rows as [|row rows IH]; intros st st' r; simpl.
  { intros [= <-]. auto. }
  destruct (scan_row sensors st row) as [st1|] eqn:Hrow; [|done]. simpl.
  intros Hrows Hr.
  destruct (IH _ _ _ Hrows Hr) as [H1|[Hin Hc]];
    [| right; split; [by right | done]].
  unfold scan_row in Hrow.
  destruct (get_sensors_coverage_at_row sensors row) as [cov|] eqn:Hcov; [|done].
  simpl in Hrow. injection Hrow as <-.
  destruct (truthy cov); [| by left]. simpl in H1.
  case_bool_decide as Hlen; [| by left].
  apply elem_of_app in H1 as [H1 | ->%list_elem_of_singleton]; [by left |].
  right. split; [by left | eauto].
Qed.

End Raises.

(** X19: the first loop of [part2] records, for every row it goes through,
    the coverage of that row and nothing else (the coverage is never empty,
    so the test on it never fails), and its candidates are the rows whose
    coverage has more than one interval. *)
Theorem scan_rows_spec (sensors : gset Sensor) (rows : list Z)
    (st : gmap Z (list range) * list Z) (r : Z) :
  scan_rows sensors rows (∅, []) = Some st →
  (r ∈ rows → st.1 !! r = get_sensors_coverage_at_row sensors r)
  ∧ (r ∉ rows → st.1 !! r = None)
  ∧ (∀ c, st.1 !! r = Some c → c ≠ [])
  ∧ (r ∈ st.2 ↔ r ∈ rows ∧ ∃ c, get_sensors_coverage_at_row sensors r = Some c
                               ∧ (1 < length c)%nat).
Proof.
  intros Hscan. split_and!.
  - intros Hin.
    destruct (scan_rows_stores _ _ _ _ r Hscan Hin) as (c & Hc & [c' Hc'] & _).
    destruct (scan_rows_lookup _ _ _ _ _ _ Hscan Hc') as [?|[_ ?]]; [done |].
    congruence.
  - intros Hnin. destruct (st.1 !! r) as [c|] eqn:Hc; [| done].
    by destruct (scan_rows_lookup _ _ _ _ _ _ Hscan Hc) as [?|[? _]].
  - intros c Hc.
    destruct (scan_rows_lookup _ _ _ _ _ _ Hscan Hc) as [?|[_ Hcov]]; [done |].
    by destruct (coverage_canonical _ _ _ Hcov) as (? & _).
  - split.
    + intros Hr.
      by destruct (scan_rows_candidates_inv _ _ _ _ _ Hscan Hr) as [?%elem_of_nil|?].
    + intros (Hin & c & Hc & Hlen).
      destruct (scan_rows_stores _ _ _ _ r Hscan Hin) as (c' & Hc' & _ & Hcand).
      apply Hcand. congruence.
Qed.

Lemma scan_rows_spec_witness :
  (1 ∈ seqZ 0 3 →
   two_sensors_scan.1 !! 1 = get_sensors_coverage_at_row (sensors_of two_sensors) 1)
  ∧ (1 ∉ seqZ 0 3 → two_sensors_scan.1 !! 1 = None)
  ∧ (∀ c, two_sensors_scan.1 !! 1 = Some c → c ≠ [])
  ∧ (1 ∈ two_sensors_scan.2
     ↔ 1 ∈ seqZ 0 3
       ∧ ∃ c, get_sensors_coverage_at_row (sensors_of two_sensors) 1 = Some c
              ∧ (1 < length c)%nat).
Proof.
  apply (scan_rows_spec (sensors_of two_sensors) (seqZ 0 3) two_sensors_scan 1).
  vm_compute. reflexivity.
Defined.

(** X20: [part1] raises exactly when the row is out of the scan range of
    every sensor of the mapping (and so on the empty mapping). *)
Theorem part1_raises_iff (data : gmap Coord Coord) (row : Z) :
  part1 data row = None
  ↔ ∀ sensor beacon, data !! sensor = Some beacon →
      distance sensor beacon < Z.abs (row - y sensor).
Proof.
  rewrite <-coverage_None_data. unfold part1.
  by destruct (get_sensors_coverage_at_row (sensors_of data) row).
Qed.

(** X21: [part2] raises exactly when some row of [0 .. search_area_size] is
    out of the scan range of every sensor of the mapping; the lookup of a
    candidate row never fails. *)
Theorem part2_raises_iff (data : gmap Coord Coord) (search_area_size : Z) :
  part2 data search_area_size = None
  ↔ ∃ row, 0 <= row <= search_area_size
      ∧ ∀ sensor beacon, data !! sensor = Some beacon →
          distance sensor beacon < Z.abs (row - y sensor).
Proof.
  setoid_rewrite <-coverage_None_data. split.
  - unfold part2, find_gap.
    destruct (scan_rows _ _ _) as [st|] eqn:Hscan; simpl.
    + destruct (search_rows_is_Some st.1 st.2) as [found ->]; [| done].
      apply (scan_rows_candidates _ _ _ _ Hscan). intros r Hr.
      by apply elem_of_nil in Hr.
    + intros _. apply scan_rows_None_inv in Hscan as (row & Hin & Hnone).
      apply elem_of_seqZ in Hin. exists row. split; [lia | done].
  - intros (row & Hrow & Hnone). unfold part2, find_gap.
    rewrite (scan_rows_None _ _ row); [done | | done].
    apply elem_of_seqZ. lia.
Qed.

(** * The pairs examined by the search *)

Section Pairs.

Implicit Types (rc : gmap Z (list range)) (pairs : list (range * range)).

(** The inner loop returns at the first pair that is a one-cell gap whose
    missing cell is covered on the rows above and below. *)
Lemma search_pairs_first rc row pairs px row' :
  search_pairs rc row pairs = Some (px, row')
  ↔ row' = row
    ∧ ∃ (i : nat) left_ right_,
        pairs !! i = Some (left_, right_)
        ∧ right_.1 - left_.2 = 2 ∧ px = left_.2 + 1
        ∧ covered_in rc (row - 1) px = true
        ∧ covered_in rc (row + 1) px = true
        ∧ ∀ (j : nat) l r, (j < i)%nat → pairs !! j = Some (l, r) →
            ¬ (r.1 - l.2 = 2
               ∧ covered_in rc (row - 1) (l.2 + 1) = true
               ∧ covered_in rc (row + 1) (l.2 + 1) = true).
Proof.
  induction pairs as [|[l0 r0] pairs IH].
  { split; [done |]. by intros (_ & i & ? & ? & ? & _). }
  cbn [search_pairs].
  assert (search_pairs rc row pairs = Some (px, row')
          → ¬ (r0.1 - l0.2 = 2
               ∧ covered_in rc (row - 1) (l0.2 + 1) = true
               ∧ covered_in rc (row + 1) (l0.2 + 1) = true)
          → row' = row
            ∧ ∃ (i : nat) left_ right_,
                ((l0, r0) :: pairs) !! i = Some (left_, right_)
                ∧ right_.1 - left_.2 = 2 ∧ px = left_.2 + 1
                ∧ covered_in rc (row - 1) px = true
                ∧ covered_in rc (row + 1) px = true
                ∧ ∀ (j : nat) l r, (j < i)%nat →
                    ((l0, r0) :: pairs) !! j = Some (l, r) →
                    ¬ (r.1 - l.2 = 2
                       ∧ covered_in rc (row - 1) (l.2 + 1) = true
                       ∧ covered_in rc (row + 1) (l.2 + 1) = true)) as Hlater.
  { intros (-> & i & left_ & right_ & Hi & ? & ? & ? & ? & Hfirst)%IH Hhead.
    split; [done |]. exists (S i), left_, right_. split_and!; try done.
    intros [|j] l r Hj Hlook; simpl in Hlook.
    - by injection Hlook as <- <-.
    - apply (Hfirst j); [lia | done]. }
  assert (∀ (i : nat) left_ right_,
            ((l0, r0) :: pairs) !! S i = Some (left_, right_) →
            right_.1 - left_.2 = 2 → px = left_.2 + 1 →
            covered_in rc (row - 1) px = true →
            covered_in rc (row + 1) px = true →
            (∀ (j : nat) l r, (j < S i)%nat →
               ((l0, r0) :: pairs) !! j = Some (l, r) →
               ¬ (r.1 - l.2 = 2
                  ∧ covered_in rc (row - 1) (l.2 + 1) = true
                  ∧ covered_in rc (row + 1) (l.2 + 1) = true)) →
            row' = row →
            search_pairs rc row pairs = Some (px, row')) as Hback.
  { intros i left_ right_ Hi ? ? ? ? Hfirst Hrow. apply IH. split; [done |].
    exists i, left_, right_. split_and!; try done.
    intros j l r Hj Hlook. apply (Hfirst (S j)); [lia | done]. }
  destruct (gap_x l0 r0) as [x0|] eqn:Hgap.
  - apply gap_x_Some in Hgap as [Hgap ->].
    destruct (covered_in rc (row - 1) (l0.2 + 1)) eqn:Ha;
      [destruct (covered_in rc (row + 1) (l0.2 + 1)) eqn:Hb |]; cbn [andb].
    + split.
      * intros [= <- <-]. split; [done |].
        exists 0%nat, l0, r0. split_and!; try done. intros; lia.
      * intros (-> & [|i] & left_ & right_ & Hi & ? & -> & ? & ? & Hfirst).
        -- simpl in Hi. by injection Hi as <- <-.
        -- exfalso. apply (Hfirst 0%nat l0 r0); [lia | done | done].
    + split; [intros H; apply Hlater; [done |]; intros (_ & _ & ?); congruence |].
      intros (Hrow & [|i] & left_ & right_ & Hi & ? & Hx & ? & ? & Hfirst).
      * simpl in Hi. injection Hi as <- <-. congruence.
      * by eapply Hback.
    + split; [intros H; apply Hlater; [done |]; intros (_ & ? & _); congruence |].
      intros (Hrow & [|i] & left_ & right_ & Hi & ? & Hx & ? & ? & Hfirst).
      * simpl in Hi. injection Hi as <- <-. congruence.
      * by eapply Hback.
  - assert (r0.1 - l0.2 ≠ 2) as Hne.
    { intros Heq. by rewrite (proj2 (gap_x_Some l0 r0 (l0.2 + 1))) in Hgap. }
    split; [intros H; apply Hlater; [done |]; intros (? & _); done |].
    intros (Hrow & [|i] & left_ & right_ & Hi & ? & Hx & ? & ? & Hfirst).
    + simpl in Hi. by injection Hi as <- <-.
    + by eapply Hback.
Qed.

End Pairs.

(** C6: among the pairs of neighbouring intervals that [part2] examines, a
    pair is taken as a one-cell gap exactly when
    [right.start - left.end = 2], and the missing x is then [left.end + 1]:
    the inner loop returns at the first such pair whose missing cell is
    covered above and below, and a point returned by [part2] comes from two
    neighbouring intervals of its row that are 2 apart.  With rows 0 and 2
    covered, [[0,4]] and [[7,10]] on row 1 give nothing, [[0,4]] and
    [[6,10]] give x = 5. *)
Theorem part2_gap_recognised (sensors : gset Sensor)
    (search_area_size px row : Z) :
  (∀ (rc : gmap Z (list range)) r (pairs : list (range * range)) x r',
     search_pairs rc r pairs = Some (x, r')
     ↔ r' = r
       ∧ ∃ (i : nat) left_ right_,
           pairs !! i = Some (left_, right_)
           ∧ right_.1 - left_.2 = 2 ∧ x = left_.2 + 1
           ∧ covered_in rc (r - 1) x = true
           ∧ covered_in rc (r + 1) x = true
           ∧ ∀ (j : nat) l' r'', (j < i)%nat → pairs !! j = Some (l', r'') →
               ¬ (r''.1 - l'.2 = 2
                  ∧ covered_in rc (r - 1) (l'.2 + 1) = true
                  ∧ covered_in rc (r + 1) (l'.2 + 1) = true))
  ∧ (find_gap sensors search_area_size = Some (Some (px, row)) →
     ∃ coverage (i : nat) left_ right_,
       get_sensors_coverage_at_row sensors row = Some coverage
       ∧ coverage !! i = Some left_ ∧ coverage !! S i = Some right_
       ∧ right_.1 - left_.2 = 2 ∧ px = left_.2 + 1)
  ∧ search_pairs rows_0_2_covered 1 (pairwise [(0, 4); (7, 10)]) = None
  ∧ search_pairs rows_0_2_covered 1 (pairwise [(0, 4); (6, 10)]) = Some (5, 1).
Proof.
  split_and!.
  - intros rc r pairs x r'. apply search_pairs_first.
  - intros (c & left_ & right_ & i & _ & _ & Hc & Hi & HSi & Hgap & Hx & _)%find_gap_Some.
    exists c, i, left_, right_. done.
  - by vm_compute.
  - by vm_compute.
Qed.

Lemma part2_gap_recognised_witness :
  ∃ coverage (i : nat) left_ right_,
    get_sensors_coverage_at_row (sensors_of two_sensors) 1 = Some coverage
    ∧ coverage !! i = Some left_ ∧ coverage !! S i = Some right_
    ∧ right_.1 - left_.2 = 2 ∧ 5 = left_.2 + 1.
Proof.
  apply (part2_gap_recognised (sensors_of two_sensors) 2 5 1).
  vm_compute. reflexivity.
Defined.

(** * The longest numerals *)

(** A numeral of 4301 digits, here zeros, makes [int] and with it [parse]
    raise; one of 4300 digits is read. *)
Example parse_long_numeral :
  int (zeros 4301) = None
  ∧ int (zeros 4300) = Some 0
  ∧ parse ("Sensor at x=" ++ zeros 4301
           ++ ", y=0: closest beacon is at x=0, y=0")%string = None.
Proof. split_and!; vm_compute; reflexivity. Qed.
